(** * Huffman coding demo (huff/huff.py): embedding and verification

    The Python module is embedded function by function.  Python values are
    modelled as follows:
    - [str] is a list of code points, and a character is a one-element [str];
    - [int] is [Z]; [bool] is [bool]; a [List[T]] is a [list];
    - [Optional[T]] is [option]; the dataclass [HuffmanNode] is a record;
    - a call either returns a value or raises a Python exception, which is
      identified by the name of its class. *)

From Stdlib Require Import ZArith String Ascii Lia.
From stdpp Require Import base option list numbers strings sorting.

Local Open Scope Z_scope.
Local Open Scope nat_scope.

(** ** Python values *)

(** A Python string, as the sequence of its code points. *)
Abbreviation str := (list nat).

(** Reading a literal as a Python string. *)
Definition py (s : string) : str := nat_of_ascii <$> list_ascii_of_string s.

Inductive exn : Type := Exn (name : string).

Global Instance exn_eq_dec : EqDecision exn.
Proof. solve_decision. Defined.

Definition IndexError : exn := Exn "IndexError".
Definition TypeError : exn := Exn "TypeError".
Definition AttributeError : exn := Exn "AttributeError".
Definition AssertionError : exn := Exn "AssertionError".

(** The outcome of a call: a value, a raised exception, or (for the one
    [while] loop of the module) a run that used up its iteration budget. *)
Inductive result (A : Type) : Type :=
| Ok (a : A)
| Raise (e : exn)
| OutOfFuel.
Arguments Ok {A} a.
Arguments Raise {A} e.
Arguments OutOfFuel {A}.

Definition bind {A B} (r : result A) (k : A → result B) : result B :=
  match r with
  | Ok a => k a
  | Raise e => Raise e
  | OutOfFuel => OutOfFuel
  end.

Notation "x ←' r ; k" := (bind r (λ x, k))
  (at level 20, r at level 100, k at level 200, only parsing, right associativity).
Notation "' p ←' r ; k" := (bind r (λ x, match x with p => k end))
  (at level 20, p pattern, r at level 100, k at level 200, only parsing,
   right associativity).

(** [for x in xs: acc = body(acc, x)] *)
Fixpoint for_each {A B} (body : B → A → result B) (acc : B) (xs : list A)
  : result B :=
  match xs with
  | [] => Ok acc
  | x :: xs' => acc' ←' body acc x; for_each body acc' xs'
  end.

(** [l[i]] *)
Definition getitem {A} (l : list A) (i : nat) : result A :=
  match l !! i with
  | Some x => Ok x
  | None => Raise IndexError
  end.

(** [l[i] = x] *)
Definition setitem {A} (l : list A) (i : nat) (x : A) : result (list A) :=
  if decide (i < length l) then Ok (<[i:=x]> l) else Raise IndexError.

(** [l.pop(0)] *)
Definition pop0 {A} (l : list A) : result (A * list A) :=
  match l with
  | [] => Raise IndexError
  | x :: l' => Ok (x, l')
  end.

(** [ord(s)]: defined on strings of length one only. *)
Definition ord (s : str) : result nat :=
  match s with
  | [c] => Ok c
  | _ => Raise TypeError
  end.

(** ** The module *)

Definition ASCII_MAX : nat := 256.

#[warnings="-register-all"]
Inductive HuffmanNode : Type := mkHuffmanNode {
  value : option str;
  freq : Z;
  left : option HuffmanNode;
  right : option HuffmanNode
}.

(** Truth value of an [Optional[str]]: [None] and the empty string are false. *)
Definition str_truthy (v : option str) : bool :=
  match v with
  | Some (_ :: _) => true
  | _ => false
  end.

(** Truth value of an [Optional[List[T]]]: [None] and the empty list are false. *)
Definition list_truthy {A} (l : option (list A)) : bool :=
  match l with
  | Some (_ :: _) => true
  | _ => false
  end.

Abbreviation FrequencyTable := (list (option HuffmanNode)).
Abbreviation Dictionary := (list (option (list bool))).

(** Body of the loop of [construct_frequency_table].  A [HuffmanNode] is
    always true, so [frequency_table[ord(char)] or HuffmanNode(char, 0)] is
    the stored node when there is one. *)
Definition count_char (frequency_table : FrequencyTable) (char : nat)
  : result FrequencyTable :=
  entry ←' getitem frequency_table char;
  let node := default (mkHuffmanNode (Some [char]) 0 None None) entry in
  let node := mkHuffmanNode (value node) (freq node + 1) (left node) (right node) in
  setitem frequency_table char (Some node).

Definition construct_frequency_table (string : str) : result FrequencyTable :=
  for_each count_char (replicate ASCII_MAX None) string.

(** [sorted(l, key=lambda node: node.freq)]: Python's sort is stable; this is
    the stable insertion of each element in front of the already sorted
    elements that followed it. *)
Fixpoint insert_by_freq (x : HuffmanNode) (l : list HuffmanNode)
  : list HuffmanNode :=
  match l with
  | [] => [x]
  | y :: l' =>
      if bool_decide (freq y < freq x)%Z then y :: insert_by_freq x l'
      else x :: l
  end.

Definition sorted_by_freq (l : list HuffmanNode) : list HuffmanNode :=
  foldr insert_by_freq [] l.

Definition _popmin (list1 list2 : list HuffmanNode)
  : result (HuffmanNode * list HuffmanNode * list HuffmanNode) :=
  if decide (0 < length list1 + length list2) then
    let take_second :=
      match list1 with
      | [] => true
      | x :: _ =>
          match list2 with
          | [] => false
          | y :: _ => bool_decide (freq y < freq x)%Z
          end
      end in
    if take_second
    then '(node, list2') ←' pop0 list2; Ok (node, list1, list2')
    else '(node, list1') ←' pop0 list1; Ok (node, list1', list2)
  else Raise AssertionError.

(** One round of the [while] loop of [construct_huffman_tree]. *)
Definition merge_round (queue node_queue : list HuffmanNode)
  : result (list HuffmanNode * list HuffmanNode) :=
  '(first, queue, node_queue) ←' _popmin queue node_queue;
  '(second, queue, node_queue) ←' _popmin queue node_queue;
  let node :=
    mkHuffmanNode None (freq first + freq second) (Some first) (Some second) in
  Ok (queue, node_queue ++ [node]).

Fixpoint merge_loop (fuel : nat) (queue node_queue : list HuffmanNode)
  : result (list HuffmanNode * list HuffmanNode) :=
  if decide (1 < length queue + length node_queue) then
    match fuel with
    | O => OutOfFuel
    | S fuel' =>
        '(queue, node_queue) ←' merge_round queue node_queue;
        merge_loop fuel' queue node_queue
    end
  else Ok (queue, node_queue).

(** Every round takes one node off the two lists, so as many rounds as there
    are leaves is enough ([construct_huffman_tree_terminates]). *)
Definition construct_huffman_tree (frequency_table : FrequencyTable)
  : result HuffmanNode :=
  let queue := sorted_by_freq (omap id frequency_table) in
  '(queue, node_queue) ←' merge_loop (length queue) queue [];
  getitem node_queue 0.

(** The first statement of [construct_dict]: with no dictionary (or an empty
    one) or no prefix (or an empty one), both are reset. *)
Definition enter_dict (dictionary : option Dictionary)
    (prefix : option (list bool)) : Dictionary * list bool :=
  if negb (list_truthy dictionary) || negb (list_truthy prefix)
  then (replicate ASCII_MAX None, [])
  else (default [] dictionary, default [] prefix).

(** [construct_dict] on a node that is not [None].  The recursion is on the
    node; a call on a child that is [None] runs the first statement and
    returns the dictionary. *)
Fixpoint construct_dict_node (node : HuffmanNode)
    (dictionary : option Dictionary) (prefix : option (list bool))
  : result Dictionary :=
  let '(dictionary, prefix) := enter_dict dictionary prefix in
  dictionary ←'
    (if str_truthy (value node)
     then i ←' ord (default [] (value node));
          setitem dictionary i (Some prefix)
     else Ok dictionary);
  dictionary ←'
    match left node with
    | Some l =>
        construct_dict_node l (Some dictionary) (Some (prefix ++ [false]))
    | None => Ok (enter_dict (Some dictionary) (Some (prefix ++ [false]))).1
    end;
  match right node with
  | Some r => construct_dict_node r (Some dictionary) (Some (prefix ++ [true]))
  | None => Ok (enter_dict (Some dictionary) (Some (prefix ++ [true]))).1
  end.

Definition construct_dict (node : option HuffmanNode)
    (dictionary : option Dictionary) (prefix : option (list bool))
  : result Dictionary :=
  match node with
  | None => Ok (enter_dict dictionary prefix).1
  | Some node => construct_dict_node node dictionary prefix
  end.

(** Body of the loop of [encode]: [out += None] raises [TypeError]. *)
Definition encode_char (dictionary : Dictionary) (out : list bool) (char : nat)
  : result (list bool) :=
  sequence ←' getitem dictionary char;
  match sequence with
  | Some s => Ok (out ++ s)
  | None => Raise TypeError
  end.

Definition encode (string : str) (dictionary : Dictionary) : result (list bool) :=
  for_each (encode_char dictionary) [] string.

(** The loop of [decode]; [curr_node] is the node held when the next bit is
    read.  Reading an attribute of [None] raises [AttributeError]. *)
Fixpoint decode_loop (root : HuffmanNode) (bit_list : list bool)
    (string : str) (curr_node : HuffmanNode) : result str :=
  match bit_list with
  | [] => Ok string
  | bit :: bit_list' =>
      match (if bit : bool then right curr_node else left curr_node) with
      | None => Raise AttributeError
      | Some curr_node =>
          if str_truthy (value curr_node)
          then decode_loop root bit_list'
                 (string ++ default [] (value curr_node)) root
          else decode_loop root bit_list' string curr_node
      end
  end.

Definition decode (bit_list : list bool) (root : HuffmanNode) : result str :=
  decode_loop root bit_list [] root.

(** ["".join(["1" if char else "0" for char in bool_list])] *)
Definition bool_list_to_str (bool_list : list bool) : str :=
  mjoin ((λ char : bool, if char then py "1" else py "0") <$> bool_list).

(** The pipeline of [main]: table, tree, dictionary, encoding, decoding. *)
Definition roundtrip (string : str) : result str :=
  frequency_table ←' construct_frequency_table string;
  root_node ←' construct_huffman_tree frequency_table;
  dictionary ←' construct_dict (Some root_node) None None;
  bit_list ←' encode string dictionary;
  decode bit_list root_node.

(** ** Vocabulary of the statements *)

Definition leaf (c : nat) (f : Z) : HuffmanNode :=
  mkHuffmanNode (Some [c]) f None None.

Definition internal (f : Z) (l r : HuffmanNode) : HuffmanNode :=
  mkHuffmanNode None f (Some l) (Some r).

(** Number of occurrences of a character in a string. *)
Definition occ (c : nat) (s : str) : nat := length (filter (λ x, x = c) s).

(** The table entry of character [c] after [n] occurrences. *)
Definition entry (c n : nat) : option HuffmanNode :=
  match n with
  | O => None
  | S _ => Some (leaf c (Z.of_nat n))
  end.

(** A string over the single-byte alphabet. *)
Definition bytes (s : str) : Prop := Forall (λ c, c < ASCII_MAX) s.

(** The tables [construct_frequency_table] produces: one slot per character
    code, holding either [None] or the leaf of that character with a
    positive count. *)
Definition freq_table_ok (ft : FrequencyTable) : Prop :=
  length ft = ASCII_MAX ∧
  ∀ i n, ft !! i = Some (Some n) → ∃ f, n = leaf i f ∧ (1 ≤ f)%Z.

Definition table_counts (ft : FrequencyTable) (g : nat → nat) : Prop :=
  length ft = ASCII_MAX ∧ ∀ i, i < ASCII_MAX → ft !! i = Some (entry i (g i)).

Definition freq_le (x y : HuffmanNode) : Prop := (freq x ≤ freq y)%Z.

Definition Zsum (l : list Z) : Z := foldr Z.add 0%Z l.

(** The leaves of a tree, left to right: the character, the weight and the
    path from the root ([false] to the left, [true] to the right). *)
Fixpoint wcodes (t : HuffmanNode) : list (nat * Z * list bool) :=
  match value t with
  | Some [c] => [(c, freq t, [])]
  | _ => []
  end ++
  match left t with
  | Some l => (λ x, (x.1, false :: x.2)) <$> wcodes l
  | None => []
  end ++
  match right t with
  | Some r => (λ x, (x.1, true :: x.2)) <$> wcodes r
  | None => []
  end.

Definition codes (t : HuffmanNode) : list (nat * list bool) :=
  (λ x, (x.1.1, x.2)) <$> wcodes t.

Definition leaves (t : HuffmanNode) : list (nat * Z) := fst <$> wcodes t.

Definition symbols (t : HuffmanNode) : list nat := fst <$> leaves t.

(** Weighted path length: the sum over the leaves of weight times depth. *)
Definition wpl (t : HuffmanNode) : Z :=
  Zsum ((λ x, x.1.2 * Z.of_nat (length x.2))%Z <$> wcodes t).

(** A tree in which every node is a leaf holding one character or has
    exactly two children and no character. *)
Inductive proper : HuffmanNode → Prop :=
| proper_leaf c f : proper (leaf c f)
| proper_internal f l r :
    proper l → proper r → proper (internal f l r).

(** A proper tree whose leaves have weight at least 1 and whose internal
    nodes weigh the sum of their children. *)
Inductive weighted : HuffmanNode → Prop :=
| weighted_leaf c f : (1 ≤ f)%Z → weighted (leaf c f)
| weighted_internal l r :
    weighted l → weighted r → weighted (internal (freq l + freq r) l r).

(** The leaves of a frequency table, in table order. *)
Definition table_nodes (ft : FrequencyTable) : list HuffmanNode := omap id ft.

(** The states the loop of [construct_huffman_tree] goes through. *)
Inductive loop_reaches (ft : FrequencyTable)
  : list HuffmanNode → list HuffmanNode → Prop :=
| loop_reaches_start :
    loop_reaches ft (sorted_by_freq (table_nodes ft)) []
| loop_reaches_round q nq q' nq' :
    loop_reaches ft q nq →
    1 < length q + length nq →
    merge_round q nq = Ok (q', nq') →
    loop_reaches ft q' nq'.

(** Selection in the words of the specification: out of the pending nodes,
    listed in the order of their insertion, the one of smallest weight, the
    earliest of them when several have that weight; it is removed. *)
Fixpoint select_min (pending : list HuffmanNode)
  : option (HuffmanNode * list HuffmanNode) :=
  match pending with
  | [] => None
  | x :: rest =>
      match select_min rest with
      | Some (m, rest') =>
          if bool_decide (freq m < freq x)%Z then Some (m, x :: rest')
          else Some (x, rest)
      | None => Some (x, [])
      end
  end.

(** What the two queues satisfy at the head of the loop: both are in
    order of weight, weights are not negative, and no internal node weighs
    more than twice a pending node. *)
Definition queues_ordered (q nq : list HuffmanNode) : Prop :=
  StronglySorted freq_le q ∧ StronglySorted freq_le nq ∧
  Forall (λ x, 0 ≤ freq x)%Z (q ++ nq) ∧
  Forall (λ x, Forall (λ y, freq x ≤ 2 * freq y)%Z (q ++ nq)) nq.

(** What the pending trees satisfy at the head of the loop. *)
Definition forest_ok (q nq : list HuffmanNode) : Prop :=
  Forall weighted (q ++ nq) ∧ Forall (λ t, value t = None) nq.

(** The loop invariant of [construct_huffman_tree] for a table whose leaves
    are [lv]. *)
Definition loop_inv (lv : list (nat * Z)) (q0 q nq : list HuffmanNode) : Prop :=
  queues_ordered q nq ∧ forest_ok q nq ∧
  (q ++ nq) ≫= leaves ≡ₚ lv ∧
  (nq ≠ [] ∨ (q = q0 ∧ nq = [])).

(** Storing codewords in a dictionary, one assignment after the other. *)
Definition assign (cs : list (nat * list bool)) (d : Dictionary) : Dictionary :=
  foldl (λ d cp, <[cp.1 := Some cp.2]> d) d cs.

Definition with_prefix (pre : list bool) (cs : list (nat * list bool))
  : list (nat * list bool) :=
  prod_map id (app pre) <$> cs.

(** The codeword a dictionary holds for a character (empty when it holds
    none). *)
Definition codeword (d : Dictionary) (c : nat) : list bool :=
  default [] (default None (d !! c)).

(** The dictionary holds exactly the paths of the leaves of the tree. *)
Definition dict_of (root : HuffmanNode) (d : Dictionary) : Prop :=
  length d = ASCII_MAX ∧
  ∀ c p, d !! c = Some (Some p) ↔ (c, p) ∈ codes root.

Definition has_codeword (d : Dictionary) (c : nat) : Prop :=
  ∃ p, d !! c = Some (Some p).

(** The tree and the dictionary of the string "abc". *)
Definition tree_abc : HuffmanNode :=
  internal 3 (leaf 99 1) (internal 2 (leaf 97 1) (leaf 98 1)).

Definition dict_abc : Dictionary :=
  <[97 := Some [true; false]]> (<[98 := Some [true; true]]>
    (<[99 := Some [false]]> (replicate ASCII_MAX None))).

(** The tree and the dictionary of the string "abb". *)
Definition tree_abb : HuffmanNode := internal 3 (leaf 97 1) (leaf 98 2).

Definition dict_abb : Dictionary :=
  <[97 := Some [false]]> (<[98 := Some [true]]> (replicate ASCII_MAX None)).

(** The dictionary of the string "ab". *)
Definition dict_ab : Dictionary :=
  <[97 := Some [false]]> (<[98 := Some [true]]> (replicate ASCII_MAX None)).

(** The frequency table of the string "abb". *)
Definition table_abb : FrequencyTable :=
  <[97 := Some (leaf 97 1)]> (<[98 := Some (leaf 98 2)]> (replicate ASCII_MAX None)).

(** The frequency table of the string "abc". *)
Definition table_abc : FrequencyTable :=
  <[97 := Some (leaf 97 1)]> (<[98 := Some (leaf 98 1)]>
    (<[99 := Some (leaf 99 1)]> (replicate ASCII_MAX None))).

(** ** Codes as lists of lengths *)

(** An assignment of codeword lengths to weights, its cost, and Kraft's
    inequality for its lengths, scaled by [2 ^ M] to stay in the integers. *)
Definition cost (A : list (Z * nat)) : Z :=
  Zsum ((λ x, x.1 * Z.of_nat x.2)%Z <$> A).

Definition ksum (M : nat) (ls : list nat) : Z :=
  Zsum ((λ l, 2 ^ Z.of_nat (M - l))%Z <$> ls).

Definition kraft (ls : list nat) : Prop :=
  ∃ M, Forall (λ l, l ≤ M) ls ∧ (ksum M ls ≤ 2 ^ Z.of_nat M)%Z.

(** No word of the list is a prefix of a word at another position. *)
Fixpoint prefix_free (cs : list (list bool)) : Prop :=
  match cs with
  | [] => True
  | c :: cs' =>
      Forall (λ c', ¬ c `prefix_of` c' ∧ ¬ c' `prefix_of` c) cs' ∧
      prefix_free cs'
  end.

(** The words that start with bit [b], without that bit. *)
Definition tails (b : bool) (cs : list (list bool)) : list (list bool) :=
  omap (λ c, match c with
             | b' :: t => if decide (b' = b) then Some t else None
             | [] => None
             end) cs.

(** Invariant of the loop against a code [A0] for the weights of the table:
    the pending weights have a code which, with the path lengths already
    built into the pending trees, costs no more than [A0]. *)
Definition cost_inv (A0 : list (Z * nat)) (q nq : list HuffmanNode) : Prop :=
  ∃ A, A.*1 ≡ₚ freq <$> (q ++ nq) ∧ kraft A.*2 ∧
       (Zsum (wpl <$> (q ++ nq)) + cost A ≤ cost A0)%Z.

(** ** Vocabulary of the optimality statement *)

(** The frequency a table records for a character. *)
Definition frequency (ft : FrequencyTable) (c : nat) : Z :=
  match ft !! c with
  | Some (Some node) => freq node
  | _ => 0%Z
  end.

(** The sum, over the distinct characters of the input, of the frequency of
    the character times the length of its codeword. *)
Definition total_length (ft : FrequencyTable) (s : str) (d : Dictionary) : Z :=
  Zsum ((λ c, frequency ft c * Z.of_nat (length (codeword d c)))%Z
          <$> remove_dups s).

(** A dictionary that is a prefix-free binary code for the characters of a
    string: each has a codeword, and the codeword of one is never a prefix of
    the codeword of another. *)
Definition prefix_code_for (s : str) (d : Dictionary) : Prop :=
  Forall (has_codeword d) s ∧
  ∀ a b, a ∈ s → b ∈ s → a ≠ b → ¬ codeword d a `prefix_of` codeword d b.

(** The characters of a single-byte string, in the order of the table. *)
Definition alphabet (s : str) : list nat :=
  filter (λ c, 0 < occ c s) (seq 0 ASCII_MAX).

(** ** Vocabulary of the further properties *)

(** A tree in which the left child of every internal node weighs no more
    than the right child. *)
Inductive left_lighter : HuffmanNode → Prop :=
| left_lighter_leaf c f : left_lighter (leaf c f)
| left_lighter_internal f l r :
    left_lighter l → left_lighter r → (freq l ≤ freq r)%Z →
    left_lighter (internal f l r).

(** The fixed-length code of eight bits per character, as a dictionary. *)
Definition byte_bits (c : nat) : list bool :=
  (λ i, Nat.testbit c i) <$> [7; 6; 5; 4; 3; 2; 1; 0].

Definition fixed_dict : Dictionary :=
  (λ c, Some (byte_bits c)) <$> seq 0 ASCII_MAX.

(** Exchanging two characters. *)
Definition swap_chars (a b x : nat) : nat :=
  if decide (x = a) then b else if decide (x = b) then a else x.

(** A dictionary with the codewords of two characters exchanged. *)
Definition swap_codewords (d : Dictionary) (a b : nat) : Dictionary :=
  <[a := d !!! b]> (<[b := d !!! a]> d).

(** * Properties *)

Section result_lemmas.
Context {A B : Type}.

Lemma bind_Ok (r : result A) (k : A → result B) (b : B) :
  bind r k = Ok b ↔ ∃ a, r = Ok a ∧ k a = Ok b.
Proof.
  destruct r; simpl; split; try (intros (? & ? & ?)); try discriminate; eauto.
  congruence.
Qed.

End result_lemmas.

(** ** The frequency table *)

Lemma count_char_counts ft g c :
  table_counts ft g → c < ASCII_MAX →
  ∃ ft', count_char ft c = Ok ft' ∧
         table_counts ft' (λ i, if decide (i = c) then S (g i) else g i).
Proof.
  intros [Hlen Hft] Hc. unfold count_char, getitem.
  rewrite (Hft c Hc). simpl. unfold setitem.
  rewrite decide_True by lia. eexists; split; [reflexivity|].
  split; [by rewrite length_insert|].
  intros i Hi. destruct (decide (i = c)) as [->|Hne].
  - rewrite list_lookup_insert_eq by lia. f_equal.
    destruct (g c) as [|n] eqn:Hg; simpl; unfold leaf; do 2 f_equal; lia.
  - rewrite list_lookup_insert_ne by done. auto.
Qed.

Lemma occ_cons c x s : occ c (x :: s) = (if decide (x = c) then 1 else 0) + occ c s.
Proof. unfold occ. rewrite filter_cons. by destruct (decide (x = c)). Qed.

Lemma for_each_count_char s : ∀ ft g,
  table_counts ft g → bytes s →
  ∃ ft', for_each count_char ft s = Ok ft' ∧
         table_counts ft' (λ i, g i + occ i s).
Proof.
  induction s as [|c s IH]; intros ft g Hft Hs; simpl.
  - exists ft. split; [done|]. destruct Hft as [? Hft]. split; [done|].
    intros i Hi. rewrite Hft by done. unfold occ. simpl. by rewrite Nat.add_0_r.
  - apply Forall_cons in Hs as [Hc Hs].
    destruct (count_char_counts ft g c Hft Hc) as (ft1 & -> & Hft1). simpl.
    destruct (IH _ _ Hft1 Hs) as (ft' & -> & [Hlen Hft']).
    exists ft'. split; [done|]. split; [done|].
    intros i Hi. rewrite Hft' by done. f_equal. f_equal.
    rewrite occ_cons. destruct (decide (i = c)), (decide (c = i)); lia.
Qed.

Lemma construct_frequency_table_counts s :
  bytes s →
  ∃ ft, construct_frequency_table s = Ok ft ∧ table_counts ft (λ i, occ i s).
Proof.
  intros Hs. unfold construct_frequency_table.
  destruct (for_each_count_char s (replicate ASCII_MAX None) (λ _, 0)) as (ft & Hft & Hc);
    [|done|by exists ft].
  split; [by rewrite length_replicate|].
  intros i Hi. by rewrite lookup_replicate_2.
Qed.

Lemma table_counts_ok ft g : table_counts ft g → freq_table_ok ft.
Proof.
  intros [Hlen Hft]. split; [done|]. intros i n Hi.
  assert (i < ASCII_MAX) as Hlt by (rewrite <- Hlen; eapply lookup_lt_Some; eauto).
  rewrite (Hft i Hlt) in Hi. destruct (g i) eqn:Hg; simpl in Hi; [done|].
  injection Hi as <-. eexists; split; [done|lia].
Qed.

(** ** The two queues *)

Lemma popmin_cases l1 l2 :
  0 < length l1 + length l2 →
  ∃ x l1' l2', _popmin l1 l2 = Ok (x, l1', l2') ∧
    ((l1 = x :: l1' ∧ l2' = l2 ∧ ∀ y l, l2 = y :: l → (freq x ≤ freq y)%Z) ∨
     (l2 = x :: l2' ∧ l1' = l1 ∧ ∀ y l, l1 = y :: l → (freq x < freq y)%Z)).
Proof.
  intros Hlen. unfold _popmin. rewrite decide_True by done.
  destruct l1 as [|x l1], l2 as [|y l2]; simpl in *; try lia.
  - exists y, [], l2. split; [done|]. right. repeat split; done.
  - exists x, l1, []. split; [done|]. left. repeat split; done.
  - case_bool_decide as Hlt; simpl.
    + exists y, (x :: l1), l2. split; [done|]. right. repeat split.
      intros ?? [= <- <-]. done.
    + exists x, l1, (y :: l2). split; [done|]. left. repeat split.
      intros ?? [= <- <-]. lia.
Qed.

Lemma insert_by_freq_perm x l : insert_by_freq x l ≡ₚ x :: l.
Proof.
  induction l as [|y l IH]; simpl; [done|].
  case_bool_decide; [|done]. rewrite IH. apply Permutation_swap.
Qed.

Lemma sorted_by_freq_perm l : sorted_by_freq l ≡ₚ l.
Proof.
  induction l as [|x l IH]; simpl; [done|].
  by rewrite insert_by_freq_perm, IH.
Qed.

Lemma insert_by_freq_sorted x l :
  StronglySorted freq_le l → StronglySorted freq_le (insert_by_freq x l).
Proof.
  induction 1 as [|y l Hl IH Hy]; simpl.
  - repeat constructor.
  - case_bool_decide as Hlt.
    + constructor; [done|]. rewrite insert_by_freq_perm.
      constructor; [unfold freq_le; lia|done].
    + constructor; [by constructor|].
      constructor; [unfold freq_le; lia|].
      eapply Forall_impl; [exact Hy|]. unfold freq_le. intros; lia.
Qed.

Lemma sorted_by_freq_sorted l : StronglySorted freq_le (sorted_by_freq l).
Proof.
  induction l; simpl; [constructor|by apply insert_by_freq_sorted].
Qed.

Lemma popmin_ordered l1 l2 :
  StronglySorted freq_le l1 → StronglySorted freq_le l2 →
  0 < length l1 + length l2 →
  ∃ x l1' l2', _popmin l1 l2 = Ok (x, l1', l2') ∧
    l1 ++ l2 ≡ₚ x :: l1' ++ l2' ∧
    Forall (freq_le x) (l1' ++ l2') ∧
    l1' `suffix_of` l1 ∧ l2' `suffix_of` l2.
Proof.
  intros H1 H2 Hlen.
  destruct (popmin_cases l1 l2 Hlen) as (x & l1' & l2' & Hpop & Hcase).
  exists x, l1', l2'. split; [done|].
  destruct Hcase as [(-> & -> & Hhd)|(-> & -> & Hhd)].
  - apply StronglySorted_cons in H1 as [Hx H1].
    repeat split; [done| |by apply suffix_cons_r|done].
    apply Forall_app. split; [done|].
    destruct l2 as [|y l2]; [constructor|].
    apply StronglySorted_cons in H2 as [Hy H2].
    specialize (Hhd _ _ eq_refl).
    constructor; [done|].
    eapply Forall_impl; [exact Hy|]. unfold freq_le. intros; lia.
  - apply StronglySorted_cons in H2 as [Hx H2].
    repeat split; [by rewrite Permutation_middle| |done|by apply suffix_cons_r].
    apply Forall_app. split; [|done].
    destruct l1 as [|y l1]; [constructor|].
    apply StronglySorted_cons in H1 as [Hy H1].
    specialize (Hhd _ _ eq_refl).
    constructor; [unfold freq_le; lia|].
    eapply Forall_impl; [exact Hy|]. unfold freq_le. intros; lia.
Qed.

Lemma suffix_sorted (l k : list HuffmanNode) :
  l `suffix_of` k → StronglySorted freq_le k → StronglySorted freq_le l.
Proof. intros [k' ->]. apply StronglySorted_app_1_r. Qed.

Lemma suffix_Forall {A} (P : A → Prop) (l k : list A) :
  l `suffix_of` k → Forall P k → Forall P l.
Proof. intros [k' ->]. rewrite Forall_app. tauto. Qed.

(** One round on ordered queues: the two nodes taken are the two lightest
    pending ones, and the new node goes to the end of [node_queue]. *)
Lemma merge_round_ordered q nq :
  StronglySorted freq_le q → StronglySorted freq_le nq →
  1 < length q + length nq →
  ∃ a b q' nq',
    merge_round q nq = Ok (q', nq' ++ [internal (freq a + freq b) a b]) ∧
    q ++ nq ≡ₚ a :: b :: q' ++ nq' ∧
    (freq a ≤ freq b)%Z ∧
    Forall (freq_le b) (q' ++ nq') ∧
    q' `suffix_of` q ∧ nq' `suffix_of` nq.
Proof.
  intros Hq Hnq Hlen.
  destruct (popmin_ordered q nq) as (a & q1 & nq1 & Hp1 & Hperm1 & Ha & Hs1 & Hs1');
    [done|done|lia|].
  assert (0 < length q1 + length nq1) as Hlen1.
  { apply Permutation_length in Hperm1.
    rewrite !length_app in Hperm1. simpl in Hperm1. rewrite length_app in Hperm1. lia. }
  destruct (popmin_ordered q1 nq1) as (b & q2 & nq2 & Hp2 & Hperm2 & Hb & Hs2 & Hs2');
    [by eapply suffix_sorted|by eapply suffix_sorted|done|].
  exists a, b, q2, nq2. unfold merge_round. rewrite Hp1. simpl. rewrite Hp2. simpl.
  split; [done|]. split; [by rewrite Hperm1, Hperm2|].
  split.
  { rewrite Hperm2 in Ha. by apply Forall_cons in Ha as [? _]. }
  split; [done|]. split; by etrans.
Qed.

Lemma merge_round_keeps_order q nq q' nq' :
  queues_ordered q nq → 1 < length q + length nq →
  merge_round q nq = Ok (q', nq') → queues_ordered q' nq'.
Proof.
  intros (Hq & Hnq & Hpos & Hbound) Hlen Hround.
  destruct (merge_round_ordered q nq Hq Hnq Hlen)
    as (a & b & q1 & nq1 & Hr & Hperm & Hab & Hb & Hsq & Hsnq).
  rewrite Hr in Hround. injection Hround as <- <-.
  rewrite Hperm in Hpos.
  apply Forall_cons in Hpos as [Ha0 Hpos]. apply Forall_cons in Hpos as [Hb0 Hpos].
  assert (Forall (λ x, Forall (λ y, freq x ≤ 2 * freq y)%Z (a :: b :: q1 ++ nq1)) nq1)
    as Hbound1.
  { apply (suffix_Forall _ _ _ Hsnq).
    eapply Forall_impl; [exact Hbound|]. intros x Hx. simpl in Hx.
    by rewrite Hperm in Hx. }
  assert (Forall (λ x, freq x ≤ freq (internal (freq a + freq b) a b))%Z nq1) as Hlast.
  { eapply Forall_impl; [exact Hbound1|]. intros x Hx. simpl.
    apply Forall_cons in Hx as [Hxa _]. lia. }
  split; [by eapply suffix_sorted|]. split.
  { apply StronglySorted_app. split; [|split].
    - intros x1 x2 Hx1 Hx2. apply list_elem_of_singleton in Hx2 as ->.
      rewrite Forall_forall in Hlast. by apply Hlast.
    - by eapply suffix_sorted.
    - repeat constructor. }
  split.
  { rewrite app_assoc. apply Forall_app. split; [done|].
    repeat constructor. simpl. lia. }
  apply Forall_app. split.
  - eapply Forall_impl; [exact Hbound1|]. intros x Hx. simpl in Hx.
    apply Forall_cons in Hx as [Hxa Hx]. apply Forall_cons in Hx as [_ Hx].
    rewrite app_assoc. apply Forall_app. split; [done|].
    repeat constructor. simpl. lia.
  - repeat constructor. simpl. rewrite app_assoc. apply Forall_app. split.
    + eapply Forall_impl; [exact Hb|]. unfold freq_le. intros; lia.
    + repeat constructor. simpl. lia.
Qed.

(** ** The loop *)

(** The loop runs until at most one node is pending and keeps whatever the
    rounds keep. *)
Lemma merge_loop_invariant (I : list HuffmanNode → list HuffmanNode → Prop) :
  (∀ q nq, I q nq → 1 < length q + length nq →
     ∃ q' nq', merge_round q nq = Ok (q', nq') ∧ I q' nq' ∧
               S (length q' + length nq') = length q + length nq) →
  ∀ fuel q nq, I q nq → length q + length nq ≤ S fuel →
    ∃ q' nq', merge_loop fuel q nq = Ok (q', nq') ∧ I q' nq' ∧
              length q' + length nq' ≤ 1.
Proof.
  intros Hstep fuel. induction fuel as [|fuel IH]; intros q nq HI Hlen; simpl.
  - case_decide; [lia|]. exists q, nq. repeat split; [done|lia].
  - case_decide as Hgt; [|exists q, nq; repeat split; [done|lia]].
    destruct (Hstep q nq HI Hgt) as (q1 & nq1 & -> & HI1 & Hlen1). simpl.
    apply IH; [done|lia].
Qed.

Lemma merge_round_total q nq :
  1 < length q + length nq →
  ∃ q' nq', merge_round q nq = Ok (q', nq') ∧
            S (length q' + length nq') = length q + length nq.
Proof.
  intros Hlen. unfold merge_round.
  destruct (popmin_cases q nq) as (a & q1 & nq1 & -> & Hcase1); [lia|].
  cbn [bind].
  assert (S (length q1 + length nq1) = length q + length nq) as Hlen1
    by (destruct Hcase1 as [(-> & -> & _)|(-> & -> & _)]; simpl; lia).
  destruct (popmin_cases q1 nq1) as (b & q2 & nq2 & -> & Hcase2); [lia|].
  cbn [bind]. eexists _, _. split; [done|]. rewrite length_app. simpl.
  destruct Hcase2 as [(-> & -> & _)|(-> & -> & _)]; simpl in *; lia.
Qed.

(** The loop never uses up its budget: the builder returns or raises, on
    every table. *)
Lemma construct_huffman_tree_terminates (ft : FrequencyTable) :
  construct_huffman_tree ft ≠ OutOfFuel.
Proof.
  unfold construct_huffman_tree.
  destruct (merge_loop_invariant (λ _ _, True)) with
    (fuel := length (sorted_by_freq (omap id ft)))
    (q := sorted_by_freq (omap id ft)) (nq := @nil HuffmanNode)
    as (q' & nq' & -> & _ & _).
  - intros q nq _ Hlen.
    destruct (merge_round_total q nq Hlen) as (q' & nq' & Hr & Hl). eauto.
  - done.
  - simpl. lia.
  - cbn [bind]. unfold getitem. by destruct (nq' !! 0).
Qed.

(** ** Trees *)

Lemma wcodes_leaf c f : wcodes (leaf c f) = [(c, f, [])].
Proof. reflexivity. Qed.

Lemma wcodes_internal f l r :
  wcodes (internal f l r) =
  ((λ x, (x.1, false :: x.2)) <$> wcodes l) ++
  ((λ x, (x.1, true :: x.2)) <$> wcodes r).
Proof. reflexivity. Qed.

Lemma leaves_internal f l r : leaves (internal f l r) = leaves l ++ leaves r.
Proof.
  unfold leaves. rewrite wcodes_internal, fmap_app, <- !list_fmap_compose.
  reflexivity.
Qed.

Lemma codes_internal f l r :
  codes (internal f l r) =
  (prod_map id (cons false) <$> codes l) ++ (prod_map id (cons true) <$> codes r).
Proof.
  unfold codes. rewrite wcodes_internal, fmap_app, <- !list_fmap_compose.
  reflexivity.
Qed.

Lemma weighted_proper t : weighted t → proper t.
Proof. induction 1; by constructor. Qed.

Lemma weighted_freq t : weighted t → freq t = Zsum (snd <$> leaves t).
Proof.
  induction 1 as [c f Hf|l r Hl IHl Hr IHr]; [simpl; lia|].
  rewrite leaves_internal, fmap_app. simpl. rewrite IHl, IHr.
  generalize (snd <$> leaves l). intros xs. induction xs; simpl; lia.
Qed.

Lemma weighted_freq_pos t : weighted t → (1 ≤ freq t)%Z.
Proof. induction 1; simpl; lia. Qed.

(** ** The tree builder *)

Lemma merge_round_loop_inv lv q0 q nq :
  loop_inv lv q0 q nq → 1 < length q + length nq →
  ∃ q' nq', merge_round q nq = Ok (q', nq') ∧ loop_inv lv q0 q' nq' ∧
            S (length q' + length nq') = length q + length nq.
Proof.
  intros (Hord & [Hw Hint] & Hlv & _) Hlen.
  pose proof Hord as (Hq & Hnq & _).
  destruct (merge_round_ordered q nq Hq Hnq Hlen)
    as (a & b & q1 & nq1 & Hr & Hperm & Hab & Hb & Hsq & Hsnq).
  eexists _, _. split; [exact Hr|].
  rewrite Hperm in Hw.
  apply Forall_cons in Hw as [Ha Hw]. apply Forall_cons in Hw as [Hwb Hw].
  split; [|apply Permutation_length in Hperm;
           rewrite !length_app in *; simpl in *; rewrite !length_app in *; simpl; lia].
  split; [by eapply merge_round_keeps_order|].
  split; [|split].
  - split.
    + rewrite app_assoc. apply Forall_app. split; [done|].
      repeat constructor; done.
    + apply Forall_app. split; [by eapply suffix_Forall|by repeat constructor].
  - rewrite <- Hlv, Hperm, app_assoc, bind_app, bind_singleton, !bind_cons.
    rewrite leaves_internal, (comm (++)). by rewrite <- (assoc (++)).
  - left. by destruct nq1.
Qed.

Lemma table_nodes_leaf ft n :
  freq_table_ok ft → n ∈ table_nodes ft → ∃ c f, n = leaf c f ∧ (1 ≤ f)%Z.
Proof.
  intros [_ Hft] Hn. apply list_elem_of_omap in Hn as (o & Ho & Hn).
  simpl in Hn. subst o. apply list_elem_of_lookup in Ho as [i Hi].
  destruct (Hft _ _ Hi) as (f & -> & Hf). eauto.
Qed.

Lemma loop_inv_start ft :
  freq_table_ok ft →
  loop_inv (table_nodes ft ≫= leaves) (sorted_by_freq (table_nodes ft))
    (sorted_by_freq (table_nodes ft)) [].
Proof.
  intros Hft.
  assert (Forall weighted (sorted_by_freq (table_nodes ft))) as Hw.
  { rewrite sorted_by_freq_perm. apply Forall_forall. intros n Hn.
    destruct (table_nodes_leaf ft n Hft Hn) as (c & f & -> & Hf). by constructor. }
  split; [|split; [|split]].
  - split; [apply sorted_by_freq_sorted|]. split; [constructor|].
    rewrite app_nil_r. split; [|constructor].
    eapply Forall_impl; [exact Hw|]. intros t Ht.
    pose proof (weighted_freq_pos t Ht). simpl. lia.
  - split; [by rewrite app_nil_r|constructor].
  - by rewrite app_nil_r, sorted_by_freq_perm.
  - by right.
Qed.

(** With at least two leaves in the table the builder returns a tree. *)
Lemma construct_huffman_tree_builds ft :
  freq_table_ok ft → 1 < length (table_nodes ft) →
  ∃ root, construct_huffman_tree ft = Ok root ∧
          weighted root ∧ value root = None ∧
          leaves root ≡ₚ table_nodes ft ≫= leaves.
Proof.
  intros Hft Hlen. unfold construct_huffman_tree. fold (table_nodes ft).
  set (q0 := sorted_by_freq (table_nodes ft)).
  assert (length q0 = length (table_nodes ft)) as Hq0
    by (apply Permutation_length, sorted_by_freq_perm).
  destruct (merge_loop_invariant (loop_inv (table_nodes ft ≫= leaves) q0)
              (merge_round_loop_inv _ q0) (length q0) q0 [])
    as (q' & nq' & -> & (Hord & [Hw Hint] & Hlv & Hne) & Hle);
    [by apply loop_inv_start|rewrite length_nil; lia|].
  simpl. destruct Hne as [Hne|[-> ->]]; [|simpl in Hle; lia].
  destruct nq' as [|root nq']; [done|]. simpl in Hle.
  destruct q', nq'; simpl in Hle; try lia.
  exists root. simpl in *. rewrite app_nil_r in Hlv.
  rewrite Forall_singleton in Hw, Hint. done.
Qed.

(** With fewer than two leaves in the table the loop body never runs and
    [node_queue[0]] is out of range. *)
Lemma construct_huffman_tree_small ft :
  length (table_nodes ft) ≤ 1 → construct_huffman_tree ft = Raise IndexError.
Proof.
  intros Hlen. unfold construct_huffman_tree. fold (table_nodes ft).
  assert (length (sorted_by_freq (table_nodes ft)) ≤ 1) as Hq0
    by (by rewrite sorted_by_freq_perm).
  destruct (sorted_by_freq (table_nodes ft)) as [|x [|y l]]; simpl in *;
    [done|done|lia].
Qed.

(** ** The dictionary *)

(** [construct_dict] unfolds as the source reads: first statement, the test
    for [None], the assignment at a node with a character, and the two
    recursive calls. *)
Lemma construct_dict_unfold node dictionary prefix :
  construct_dict node dictionary prefix =
  let '(dictionary, prefix) := enter_dict dictionary prefix in
  match node with
  | None => Ok dictionary
  | Some node =>
      dictionary ←'
        (if str_truthy (value node)
         then i ←' ord (default [] (value node));
              setitem dictionary i (Some prefix)
         else Ok dictionary);
      dictionary ←'
        construct_dict (left node) (Some dictionary) (Some (prefix ++ [false]));
      construct_dict (right node) (Some dictionary) (Some (prefix ++ [true]))
  end.
Proof.
  destruct node as [[v f l r]|]; simpl;
    destruct (enter_dict dictionary prefix) as [d p]; [|done].
  simpl. destruct (if str_truthy v then _ else _) as [d1| |]; simpl; [|done|done].
  destruct l as [l|]; simpl.
  - destruct (construct_dict_node l _ _) as [d2| |]; simpl; [|done|done].
    by destruct r.
  - by destruct r.
Qed.

Lemma enter_dict_given d pre :
  0 < length d → pre ≠ [] → enter_dict (Some d) (Some pre) = (d, pre).
Proof. intros Hd Hpre. destruct d, pre; simpl in *; done || lia. Qed.

Lemma snoc_not_nil {A} (l : list A) (x : A) : l ++ [x] ≠ [].
Proof. by destruct l. Qed.


Lemma assign_length cs d : length (assign cs d) = length d.
Proof.
  revert d. induction cs as [|cp cs IH]; intros d; simpl; [done|].
  by rewrite IH, length_insert.
Qed.

Lemma assign_app cs1 cs2 d : assign (cs1 ++ cs2) d = assign cs2 (assign cs1 d).
Proof. apply foldl_app. Qed.

Lemma with_prefix_codes_internal pre f l r :
  with_prefix pre (codes (internal f l r)) =
  with_prefix (pre ++ [false]) (codes l) ++ with_prefix (pre ++ [true]) (codes r).
Proof.
  unfold with_prefix. rewrite codes_internal, fmap_app, <- !list_fmap_compose.
  f_equal; apply list_fmap_ext; intros i [c p] _; simpl; by rewrite <- app_assoc.
Qed.

Lemma symbols_internal f l r : symbols (internal f l r) = symbols l ++ symbols r.
Proof. unfold symbols. by rewrite leaves_internal, fmap_app. Qed.

Lemma proper_symbols_pos t : proper t → 0 < length (symbols t).
Proof.
  induction 1; [simpl; lia|]. rewrite symbols_internal, length_app. lia.
Qed.

(** On a proper tree [construct_dict] stores the path of every leaf, in
    traversal order. *)
Lemma construct_dict_node_proper t :
  proper t → ∀ od op d pre,
  enter_dict od op = (d, pre) →
  Forall (λ c, c < length d) (symbols t) →
  construct_dict_node t od op = Ok (assign (with_prefix pre (codes t)) d).
Proof.
  induction 1 as [c f|f l r Hl IHl Hr IHr]; intros od op d pre Henter Hsym.
  - simpl. rewrite Henter. simpl. unfold setitem.
    change (symbols (leaf c f)) with [c] in Hsym.
    rewrite Forall_singleton in Hsym. rewrite decide_True by done. simpl.
    assert (0 < length (<[c:=Some pre]> d)) by (rewrite length_insert; lia).
    rewrite (enter_dict_given (<[c:=Some pre]> d) (pre ++ [false]))
      by (done || apply snoc_not_nil).
    simpl.
    rewrite (enter_dict_given (<[c:=Some pre]> d) (pre ++ [true]))
      by (done || apply snoc_not_nil).
    simpl. by rewrite app_nil_r.
  - rewrite symbols_internal in Hsym. apply Forall_app in Hsym as [Hsl Hsr].
    assert (0 < length d) as Hd.
    { pose proof (proper_symbols_pos l Hl). destruct (symbols l); simpl in *; [lia|].
      apply Forall_cons in Hsl as [? _]. lia. }
    simpl. rewrite Henter. simpl.
    rewrite (IHl _ _ d (pre ++ [false]));
      [|apply enter_dict_given; [done|apply snoc_not_nil]|done].
    simpl.
    rewrite (IHr _ _ (assign (with_prefix (pre ++ [false]) (codes l)) d) (pre ++ [true]));
      [|apply enter_dict_given; [by rewrite assign_length|apply snoc_not_nil]
       |by rewrite assign_length].
    by rewrite with_prefix_codes_internal, assign_app.
Qed.

Lemma with_prefix_nil cs : with_prefix [] cs = cs.
Proof.
  unfold with_prefix. rewrite <- (list_fmap_id cs) at 2.
  apply list_fmap_ext. by intros i [c p] _.
Qed.

Lemma construct_dict_proper t :
  proper t → Forall (λ c, c < ASCII_MAX) (symbols t) →
  construct_dict (Some t) None None =
  Ok (assign (codes t) (replicate ASCII_MAX None)).
Proof.
  intros Ht Hsym. simpl.
  rewrite (construct_dict_node_proper t Ht None None (replicate ASCII_MAX None) []);
    [by rewrite with_prefix_nil|done|by rewrite length_replicate].
Qed.

Lemma assign_lookup_other cs d c :
  c ∉ cs.*1 → assign cs d !! c = d !! c.
Proof.
  revert d. induction cs as [|[c' p] cs IH]; intros d Hc; simpl; [done|].
  rewrite fmap_cons, not_elem_of_cons in Hc. destruct Hc as [Hne Hc].
  rewrite IH by done. by rewrite list_lookup_insert_ne.
Qed.

Lemma assign_lookup cs d c p :
  NoDup cs.*1 → (c, p) ∈ cs → c < length d →
  assign cs d !! c = Some (Some p).
Proof.
  revert d. induction cs as [|[c' p'] cs IH]; intros d Hnd Hin Hlt; simpl.
  - by apply elem_of_nil in Hin.
  - rewrite fmap_cons in Hnd. apply NoDup_cons in Hnd as [Hc' Hnd].
    apply elem_of_cons in Hin as [[= <- <-]|Hin].
    + rewrite assign_lookup_other by done. by rewrite list_lookup_insert_eq.
    + apply IH; [done|done|by rewrite length_insert].
Qed.

Lemma codes_symbols t : (codes t).*1 = symbols t.
Proof.
  unfold codes, symbols, leaves. rewrite <- !list_fmap_compose. reflexivity.
Qed.

Lemma assign_dict_of t :
  NoDup (symbols t) → Forall (λ c, c < ASCII_MAX) (symbols t) →
  dict_of t (assign (codes t) (replicate ASCII_MAX None)).
Proof.
  intros Hnd Hlt. split; [by rewrite assign_length, length_replicate|].
  assert (∀ c p, (c, p) ∈ codes t →
            assign (codes t) (replicate ASCII_MAX None) !! c = Some (Some p))
    as Hstored.
  { intros c p Hin. apply assign_lookup; [by rewrite codes_symbols|done|].
    rewrite length_replicate. rewrite Forall_forall in Hlt. apply Hlt.
    rewrite <- codes_symbols. apply list_elem_of_fmap. by exists (c, p). }
  intros c p. split; [|by apply Hstored].
  intros Hc. destruct (decide (c ∈ (codes t).*1)) as [Hin|Hout].
  - apply list_elem_of_fmap in Hin as ([c' p'] & -> & Hin). simpl in *.
    rewrite (Hstored c' p' Hin) in Hc. by injection Hc as <-.
  - rewrite assign_lookup_other in Hc by done.
    apply lookup_replicate in Hc as [? _]. done.
Qed.

(** ** Encoding and decoding *)

Lemma encode_from d s : ∀ out,
  Forall (λ c, ∃ p, d !! c = Some (Some p)) s →
  for_each (encode_char d) out s = Ok (out ++ (s ≫= codeword d)).
Proof.
  induction s as [|c s IH]; intros out Hs.
  - simpl. by rewrite app_nil_r.
  - apply Forall_cons in Hs as [[p Hp] Hs]. rewrite bind_cons.
    cbn [for_each]. unfold encode_char at 1, getitem. rewrite Hp. cbn [bind].
    rewrite IH by done. unfold codeword at 2.
    rewrite Hp. simpl. by rewrite app_assoc.
Qed.

Lemma encode_codewords d s :
  Forall (λ c, ∃ p, d !! c = Some (Some p)) s →
  encode s d = Ok (s ≫= codeword d).
Proof. intros Hs. unfold encode. by rewrite encode_from. Qed.

Lemma codes_leaf c f : codes (leaf c f) = [(c, [])].
Proof. reflexivity. Qed.

Lemma elem_of_codes_internal f l r c p :
  (c, p) ∈ codes (internal f l r) ↔
  (∃ p', p = false :: p' ∧ (c, p') ∈ codes l) ∨
  (∃ p', p = true :: p' ∧ (c, p') ∈ codes r).
Proof.
  rewrite codes_internal, elem_of_app, !list_elem_of_fmap. split.
  - intros [([c' p'] & [= -> ->] & Hin)|([c' p'] & [= -> ->] & Hin)]; eauto.
  - intros [(p' & -> & Hin)|(p' & -> & Hin)]; [left|right]; by exists (c, p').
Qed.

(** Reading a whole codeword from an internal node yields its character and
    puts the decoder back at the root. *)
Lemma decode_loop_codeword root n :
  proper n → value n = None → ∀ c p rest out,
  (c, p) ∈ codes n →
  decode_loop root (p ++ rest) out n = decode_loop root rest (out ++ [c]) root.
Proof.
  induction 1 as [c' f'|f l r Hl IHl Hr IHr]; intros Hv c p rest out Hin;
    [done|].
  apply elem_of_codes_internal in Hin as [(p' & -> & Hin)|(p' & -> & Hin)]; simpl.
  - destruct Hl as [c' f'|f' l' r' Hl1 Hl2].
    + rewrite codes_leaf in Hin. apply list_elem_of_singleton in Hin as [= -> ->].
      reflexivity.
    + simpl. by apply IHl.
  - destruct Hr as [c' f'|f' l' r' Hr1 Hr2].
    + rewrite codes_leaf in Hin. apply list_elem_of_singleton in Hin as [= -> ->].
      reflexivity.
    + simpl. by apply IHr.
Qed.

(** Reading only the beginning of a codeword leaves the output as it was. *)
Lemma decode_loop_partial root n :
  proper n → value n = None → ∀ c p q out,
  (c, p ++ q) ∈ codes n → q ≠ [] →
  decode_loop root p out n = Ok out.
Proof.
  induction 1 as [c' f'|f l r Hl IHl Hr IHr]; intros Hv c p q out Hin Hq;
    [done|].
  destruct p as [|b p]; [done|].
  apply elem_of_codes_internal in Hin as [(p' & [= -> <-] & Hin)|(p' & [= -> <-] & Hin)];
    simpl.
  - destruct Hl as [c' f'|f' l' r' Hl1 Hl2].
    + rewrite codes_leaf in Hin. apply list_elem_of_singleton in Hin as [= -> Hnil].
      by destruct p, q.
    + simpl. by eapply IHl.
  - destruct Hr as [c' f'|f' l' r' Hr1 Hr2].
    + rewrite codes_leaf in Hin. apply list_elem_of_singleton in Hin as [= -> Hnil].
      by destruct p, q.
    + simpl. by eapply IHr.
Qed.

Lemma decode_loop_codewords root d s :
  proper root → value root = None → dict_of root d →
  Forall (λ c, c ∈ symbols root) s → ∀ out rest,
  decode_loop root ((s ≫= codeword d) ++ rest) out root =
  decode_loop root rest (out ++ s) root.
Proof.
  intros Hroot Hv [_ Hd]. induction s as [|c s IH]; intros Hs out rest.
  - by rewrite app_nil_r.
  - apply Forall_cons in Hs as [Hc Hs].
    rewrite <- codes_symbols in Hc.
    apply list_elem_of_fmap in Hc as ([c' p] & -> & Hin). cbn [fst].
    pose proof Hin as Hlook. apply Hd in Hlook.
    rewrite bind_cons. unfold codeword at 1. rewrite Hlook. simpl.
    rewrite <- app_assoc.
    rewrite (decode_loop_codeword root root Hroot Hv c' p) by done.
    rewrite IH by done. by rewrite <- app_assoc.
Qed.

(** ** From the table to the dictionary *)

Lemma bind_leaves_symbols (l : list HuffmanNode) :
  (l ≫= leaves).*1 = l ≫= symbols.
Proof.
  induction l as [|t l IH]; [done|].
  by rewrite !bind_cons, fmap_app, IH.
Qed.

Lemma table_nodes_cons o (ft : FrequencyTable) :
  table_nodes (o :: ft) =
  match o with Some n => n :: table_nodes ft | None => table_nodes ft end.
Proof. by destruct o. Qed.

Lemma table_symbols_from (ft : FrequencyTable) : ∀ k,
  (∀ i n, ft !! i = Some (Some n) → ∃ f, n = leaf (k + i) f) →
  NoDup (table_nodes ft ≫= symbols) ∧
  Forall (λ c, k ≤ c < k + length ft) (table_nodes ft ≫= symbols).
Proof.
  induction ft as [|o ft IH]; intros k Hft.
  - split; constructor.
  - destruct (IH (S k)) as [Hnd Hb].
    { intros i n Hi. destruct (Hft (S i) n Hi) as [f ->].
      exists f. f_equal. lia. }
    assert (Forall (λ c, k ≤ c < k + length (o :: ft)) (table_nodes ft ≫= symbols))
      as Hb'.
    { eapply Forall_impl; [exact Hb|]. simpl. intros; lia. }
    rewrite table_nodes_cons. destruct o as [n|]; [|done].
    destruct (Hft 0 n eq_refl) as [f ->]. rewrite bind_cons.
    change (symbols (leaf (k + 0) f)) with [k + 0]. simpl app.
    split.
    + apply NoDup_cons. split; [|done]. intros Hin.
      rewrite Forall_forall in Hb. apply Hb in Hin. lia.
    + constructor; [simpl; lia|done].
Qed.

Lemma table_symbols ft :
  freq_table_ok ft →
  NoDup (table_nodes ft ≫= symbols) ∧
  Forall (λ c, c < ASCII_MAX) (table_nodes ft ≫= symbols).
Proof.
  intros [Hlen Hft]. destruct (table_symbols_from ft 0) as [Hnd Hb].
  { intros i n Hi. destruct (Hft i n Hi) as (f & -> & _). by exists f. }
  split; [done|]. eapply Forall_impl; [exact Hb|]. simpl. intros; lia.
Qed.

(** With at least two leaves in the table, the tree and its dictionary are
    built, and the dictionary holds the paths of the tree. *)
Lemma tree_and_dict_built ft :
  freq_table_ok ft → 1 < length (table_nodes ft) →
  ∃ root d,
    construct_huffman_tree ft = Ok root ∧
    construct_dict (Some root) None None = Ok d ∧
    weighted root ∧ value root = None ∧
    leaves root ≡ₚ table_nodes ft ≫= leaves ∧
    NoDup (symbols root) ∧ dict_of root d.
Proof.
  intros Hft Hlen.
  destruct (construct_huffman_tree_builds ft Hft Hlen) as (root & Hroot & Hw & Hv & Hlv).
  destruct (table_symbols ft Hft) as [Hnd Hb].
  assert (symbols root ≡ₚ table_nodes ft ≫= symbols) as Hsym.
  { unfold symbols. by rewrite Hlv, bind_leaves_symbols. }
  rewrite <- Hsym in Hnd, Hb.
  exists root, (assign (codes root) (replicate ASCII_MAX None)).
  split; [done|]. split; [by apply construct_dict_proper; [apply weighted_proper|]|].
  repeat split; try done. all: by apply assign_dict_of.
Qed.

Lemma built_at_least_two ft root :
  construct_huffman_tree ft = Ok root → 1 < length (table_nodes ft).
Proof.
  intros Hroot. destruct (decide (1 < length (table_nodes ft))); [done|].
  rewrite construct_huffman_tree_small in Hroot by lia. done.
Qed.

(** Whatever tree the builder returns for a frequency table, its dictionary
    is built and holds the paths of the tree. *)
Lemma built_tree_dict ft root :
  freq_table_ok ft → construct_huffman_tree ft = Ok root →
  ∃ d, construct_dict (Some root) None None = Ok d ∧
       weighted root ∧ value root = None ∧
       leaves root ≡ₚ table_nodes ft ≫= leaves ∧
       NoDup (symbols root) ∧ dict_of root d.
Proof.
  intros Hft Hroot. pose proof (built_at_least_two ft root Hroot) as Hlen.
  destruct (tree_and_dict_built ft Hft Hlen) as (root' & d & Hroot' & Hd & H).
  rewrite Hroot in Hroot'. injection Hroot' as <-. by exists d.
Qed.


(** ** Strings and their tables *)

Lemma occ_pos c s : c ∈ s → 0 < occ c s.
Proof.
  intros Hc. unfold occ.
  assert (c ∈ filter (λ x, x = c) s) as Hin by (by apply list_elem_of_filter).
  destruct (filter (λ x, x = c) s); [by apply elem_of_nil in Hin|simpl; lia].
Qed.

Lemma string_table s :
  bytes s →
  ∃ ft, construct_frequency_table s = Ok ft ∧ freq_table_ok ft ∧
        table_counts ft (λ i, occ i s) ∧
        ∀ c, c ∈ s → leaf c (Z.of_nat (occ c s)) ∈ table_nodes ft.
Proof.
  intros Hs. destruct (construct_frequency_table_counts s Hs) as (ft & Hft & Hc).
  exists ft. split; [done|]. split; [by eapply table_counts_ok|]. split; [done|].
  intros c Hin. destruct Hc as [Hlen Hc].
  assert (c < ASCII_MAX) as Hlt
    by (unfold bytes in Hs; rewrite Forall_forall in Hs; by apply Hs).
  pose proof (occ_pos c s Hin) as Hpos. specialize (Hc c Hlt).
  apply list_elem_of_omap. exists (Some (leaf c (Z.of_nat (occ c s)))).
  split; [|done]. apply list_elem_of_lookup. exists c. rewrite Hc.
  destruct (occ c s); [lia|done].
Qed.

Lemma two_elements {A} (l : list A) x y : x ∈ l → y ∈ l → x ≠ y → 1 < length l.
Proof.
  intros Hx Hy Hne. destruct l as [|a [|b l]]; simpl; [| |lia].
  - by apply elem_of_nil in Hx.
  - apply list_elem_of_singleton in Hx, Hy. congruence.
Qed.

(** Encoding then decoding a string with at least two distinct characters
    gives the string back. *)
Lemma roundtrip_two_symbols s a b :
  bytes s → a ∈ s → b ∈ s → a ≠ b → roundtrip s = Ok s.
Proof.
  intros Hs Ha Hb Hne.
  destruct (string_table s Hs) as (ft & Hft & Hok & _ & Hin).
  assert (1 < length (table_nodes ft)) as Hlen.
  { eapply two_elements; [apply (Hin a Ha)|apply (Hin b Hb)|].
    intros [= ? _]. done. }
  destruct (tree_and_dict_built ft Hok Hlen)
    as (root & d & Hroot & Hd & Hw & Hv & Hlv & Hnd & Hdict).
  unfold roundtrip. rewrite Hft. cbn [bind]. rewrite Hroot. cbn [bind].
  rewrite Hd. cbn [bind].
  assert (Forall (λ c, c ∈ symbols root) s) as Hsym.
  { apply Forall_forall. intros c Hc. unfold symbols. rewrite Hlv.
    apply list_elem_of_fmap. exists (c, Z.of_nat (occ c s)). split; [done|].
    apply list_elem_of_bind. exists (leaf c (Z.of_nat (occ c s))).
    split; [by left|by apply Hin]. }
  rewrite encode_codewords.
  - simpl. unfold decode.
    rewrite <- (app_nil_r (s ≫= codeword d)).
    by rewrite (decode_loop_codewords root d s (weighted_proper _ Hw) Hv Hdict Hsym).
  - eapply Forall_impl; [exact Hsym|]. intros c Hc. simpl in Hc.
    rewrite <- codes_symbols in Hc.
    apply list_elem_of_fmap in Hc as ([c' p] & -> & Hc).
    exists p. by apply Hdict.
Qed.

(** ** The codec on given inputs *)

(** C8: on "abb" the frequency table is {a:1, b:2}, the tree is a root of
    weight 3 with leaf(a,1) to the left and leaf(b,2) to the right, the
    dictionary is {a: [0], b: [1]}, the encoding is [0,1,1] and decoding it
    gives "abb" back. *)
Theorem abb_scenario :
  construct_frequency_table (py "abb") = Ok table_abb ∧
  construct_huffman_tree table_abb = Ok tree_abb ∧
  construct_dict (Some tree_abb) None None = Ok dict_abb ∧
  encode (py "abb") dict_abb = Ok [false; true; true] ∧
  decode [false; true; true] tree_abb = Ok (py "abb").
Proof. repeat split; vm_compute; reflexivity. Qed.

(** C10: the empty string is encoded to the empty bit list by every
    dictionary, and the empty bit list is decoded to the empty string against
    every tree. *)
Theorem empty_inputs_pass_through (d : Dictionary) (root : HuffmanNode) :
  encode [] d = Ok [] ∧ decode [] root = Ok [].
Proof. split; reflexivity. Qed.

(** C1, at the string "a": the builder leaves the only leaf in [queue] and
    reads [node_queue[0]], so the round trip raises [IndexError] instead of
    giving the string back. *)
Theorem roundtrip_single_char_raises :
  roundtrip (py "a") = Raise IndexError.
Proof. vm_compute. reflexivity. Qed.

(** A table without any leaf. *)
Lemma empty_table_nodes (ft : FrequencyTable) :
  Forall (λ o, o = None) ft → table_nodes ft = [].
Proof.
  induction 1 as [|o ft -> _ IH]; [done|]. by rewrite table_nodes_cons.
Qed.

(** C4, as the code has it: on a table without entries the builder raises
    Python's [IndexError] (from [node_queue[0]]). *)
Theorem empty_table_raises_IndexError (ft : FrequencyTable) :
  Forall (λ o, o = None) ft → construct_huffman_tree ft = Raise IndexError.
Proof.
  intros Hft. apply construct_huffman_tree_small.
  rewrite empty_table_nodes by done. simpl. lia.
Qed.

Lemma empty_table_raises_IndexError_witness :
  Forall (λ o : option HuffmanNode, o = None) (replicate ASCII_MAX None) ∧
  construct_huffman_tree (replicate ASCII_MAX None) = Raise IndexError.
Proof.
  assert (Forall (λ o : option HuffmanNode, o = None) (replicate ASCII_MAX None))
    as H by (vm_compute; repeat constructor).
  split; [exact H|]. exact (empty_table_raises_IndexError _ H).
Defined.

(** C4 as stated fails: the error of the empty table is not named
    [EmptyAlphabet]. *)
Lemma empty_table_not_EmptyAlphabet :
  construct_frequency_table (py "") = Ok (replicate ASCII_MAX None) ∧
  construct_huffman_tree (replicate ASCII_MAX None) = Raise IndexError ∧
  construct_huffman_tree (replicate ASCII_MAX None) ≠ Raise (Exn "EmptyAlphabet").
Proof. repeat split; vm_compute; try reflexivity; discriminate. Qed.

(** C5 as stated fails: encoding "c" with the dictionary of "ab" raises
    [TypeError], not an error named [UnknownSymbol]. *)
Lemma unknown_symbol_not_UnknownSymbol :
  (ft ←' construct_frequency_table (py "ab");
   root ←' construct_huffman_tree ft;
   construct_dict (Some root) None None) = Ok dict_ab ∧
  encode (py "c") dict_ab = Raise TypeError ∧
  encode (py "c") dict_ab ≠ Raise (Exn "UnknownSymbol").
Proof. repeat split; vm_compute; try reflexivity; discriminate. Qed.

Lemma encode_missing_from d c s : ∀ out,
  c ∈ s → ¬ has_codeword d c →
  (for_each (encode_char d) out s = Raise TypeError ∧
   ∃ c', c' ∈ s ∧ d !! c' = Some None) ∨
  (for_each (encode_char d) out s = Raise IndexError ∧
   ∃ c', c' ∈ s ∧ length d ≤ c').
Proof.
  induction s as [|x s IH]; intros out Hin Hno.
  - by apply elem_of_nil in Hin.
  - cbn [for_each]. unfold encode_char at 1 3, getitem.
    destruct (d !! x) as [[p|]|] eqn:Hx; cbn [bind].
    + apply elem_of_cons in Hin as [->|Hin]; [destruct Hno; by exists p|].
      destruct (IH (out ++ p) Hin Hno) as [[-> (c' & Hc' & H)]|[-> (c' & Hc' & H)]];
        [left|right]; (split; [done|]); exists c'; (split; [by right|done]).
    + left. split; [done|]. exists x. split; [by left|done].
    + right. split; [done|]. exists x. split; [by left|].
      by apply lookup_ge_None.
Qed.

(** C5, as the code has it: when a character of the input has no codeword
    in the dictionary, [encode] returns nothing and raises [TypeError] (the
    slot holds [None]) or [IndexError] (the character code is outside the
    dictionary); for a single-byte string and a dictionary of [ASCII_MAX]
    slots it is [TypeError]. *)
Theorem encode_unknown_symbol_raises (s : str) (d : Dictionary) (c : nat) :
  c ∈ s → ¬ has_codeword d c →
  (encode s d = Raise TypeError ∨ encode s d = Raise IndexError) ∧
  (bytes s → length d = ASCII_MAX → encode s d = Raise TypeError).
Proof.
  intros Hin Hno. unfold encode.
  destruct (encode_missing_from d c s [] Hin Hno)
    as [[-> _]|[-> (c' & Hc' & Hlen)]]; [by split; [left|]|].
  split; [by right|]. intros Hs Hd. unfold bytes in Hs.
  rewrite Forall_forall in Hs. apply Hs in Hc'. lia.
Qed.

Lemma encode_unknown_symbol_raises_witness :
  99 ∈ py "c" ∧ ¬ has_codeword dict_ab 99 ∧
  (encode (py "c") dict_ab = Raise TypeError ∨
   encode (py "c") dict_ab = Raise IndexError) ∧
  (bytes (py "c") → length dict_ab = ASCII_MAX →
   encode (py "c") dict_ab = Raise TypeError).
Proof.
  assert (99 ∈ py "c") as Hin by (vm_compute; left).
  assert (¬ has_codeword dict_ab 99) as Hno
    by (intros [p Hp]; vm_compute in Hp; discriminate).
  split; [exact Hin|]. split; [exact Hno|].
  exact (encode_unknown_symbol_raises (py "c") dict_ab 99 Hin Hno).
Defined.

(** ** Inputs with one distinct character *)

Lemma table_counts_eq ft g :
  table_counts ft g → ft = (λ i, entry i (g i)) <$> seq 0 ASCII_MAX.
Proof.
  intros [Hlen Hft]. apply list_eq. intros i. rewrite list_lookup_fmap.
  destruct (decide (i < ASCII_MAX)) as [Hi|Hi].
  - rewrite Hft by done. by rewrite lookup_seq_lt.
  - rewrite lookup_seq_ge by lia. apply lookup_ge_None. lia.
Qed.

Lemma table_nodes_counts ft g :
  table_counts ft g → table_nodes ft = omap (λ i, entry i (g i)) (seq 0 ASCII_MAX).
Proof.
  intros Hft. rewrite (table_counts_eq ft g Hft) at 1. unfold table_nodes.
  generalize (seq 0 ASCII_MAX). intros l.
  induction l as [|i l IH]; [done|]. csimpl. rewrite IH.
  by destruct (entry i (g i)).
Qed.

Lemma omap_at_most_one {A B} `{EqDecision A} (h : A → option B) (c : A)
    (l : list A) :
  NoDup l → (∀ i, i ≠ c → h i = None) → length (omap h l) ≤ 1.
Proof.
  intros Hnd Hh.
  assert (∀ k : list A, c ∉ k → omap h k = []) as Hnone.
  { induction k as [|x k IH]; [done|]. rewrite not_elem_of_cons. intros [Hne Hk].
    csimpl. rewrite Hh by done. by apply IH. }
  induction Hnd as [|x l Hx Hnd IH]; [simpl; lia|]. csimpl.
  destruct (decide (x = c)) as [->|Hne].
  - rewrite (Hnone l Hx). destruct (h c); simpl; lia.
  - by rewrite Hh.
Qed.

Lemma occ_replicate_other c i n : i ≠ c → occ i (replicate n c) = 0.
Proof.
  intros Hne. unfold occ. induction n as [|n IH]; [done|]. simpl.
  rewrite filter_cons. by destruct (decide (c = i)); [congruence|].
Qed.

(** C2, on every input made of one distinct character (such as "aaaa"): the
    builder finds a single leaf, runs no round and raises [IndexError] on
    [node_queue[0]]; no codeword is assigned and nothing is encoded. *)
Theorem single_symbol_input_raises (c n : nat) :
  c < ASCII_MAX →
  ∃ ft, construct_frequency_table (replicate (S n) c) = Ok ft ∧
        construct_huffman_tree ft = Raise IndexError ∧
        roundtrip (replicate (S n) c) = Raise IndexError.
Proof.
  intros Hc.
  destruct (string_table (replicate (S n) c)) as (ft & Hft & _ & Hcount & _).
  { by apply Forall_replicate. }
  assert (construct_huffman_tree ft = Raise IndexError) as Htree.
  { apply construct_huffman_tree_small.
    rewrite (table_nodes_counts _ _ Hcount).
    apply (omap_at_most_one _ c); [apply NoDup_seq|].
    intros i Hne. by rewrite occ_replicate_other. }
  exists ft. split; [done|]. split; [done|].
  unfold roundtrip. rewrite Hft. cbn [bind]. by rewrite Htree.
Qed.

Lemma single_symbol_input_raises_witness :
  97 < ASCII_MAX ∧
  ∃ ft, construct_frequency_table (replicate 4 97) = Ok ft ∧
        construct_huffman_tree ft = Raise IndexError ∧
        roundtrip (replicate 4 97) = Raise IndexError.
Proof.
  assert (97 < ASCII_MAX) as H by (unfold ASCII_MAX; lia).
  split; [exact H|]. exact (single_symbol_input_raises 97 3 H).
Defined.

(** Were the lone leaf handed on as the root, [construct_dict] would give its
    character the empty codeword, the encoding of "aaaa" would be empty, and
    decoding any bit against it would fail on a missing child. *)
Lemma lone_leaf_codeword_is_empty :
  (d ←' construct_dict (Some (leaf 97 4)) None None; getitem d 97) = Ok (Some []) ∧
  (d ←' construct_dict (Some (leaf 97 4)) None None; encode (py "aaaa") d) = Ok [] ∧
  decode [false] (leaf 97 4) = Raise AttributeError.
Proof. repeat split; vm_compute; reflexivity. Qed.

(** ** Truncated input *)

(** C3 as stated fails: in the tree of "abc" the codeword of "a" is [1,0];
    decoding its first bit alone returns the empty string and raises
    nothing. *)
Lemma truncated_stream_not_rejected :
  construct_frequency_table (py "abc") = Ok table_abc ∧
  construct_huffman_tree table_abc = Ok tree_abc ∧
  construct_dict (Some tree_abc) None None = Ok dict_abc ∧
  dict_abc !! 97 = Some (Some [true; false]) ∧
  decode [true] tree_abc = Ok [] ∧
  decode [true] tree_abc ≠ Raise (Exn "TruncatedStream").
Proof. repeat split; vm_compute; try reflexivity; discriminate. Qed.

(** C3, as the code has it: when the bits are the codewords of a string
    followed by the beginning of one more codeword, [decode] returns the
    string and drops the unfinished codeword without an error. *)
Theorem decode_drops_partial_codeword
    (ft : FrequencyTable) (root : HuffmanNode) (d : Dictionary)
    (s : str) (c : nat) (p q : list bool) :
  freq_table_ok ft →
  construct_huffman_tree ft = Ok root →
  construct_dict (Some root) None None = Ok d →
  Forall (has_codeword d) s →
  d !! c = Some (Some (p ++ q)) → q ≠ [] →
  encode s d = Ok (s ≫= codeword d) ∧
  decode ((s ≫= codeword d) ++ p) root = Ok s.
Proof.
  intros Hft Hroot Hd Hs Hc Hq.
  destruct (built_tree_dict ft root Hft Hroot) as (d' & Hd' & Hw & Hv & _ & _ & Hdict).
  rewrite Hd in Hd'. injection Hd' as <-.
  split; [by apply encode_codewords|].
  assert (Forall (λ x, x ∈ symbols root) s) as Hsym.
  { eapply Forall_impl; [exact Hs|]. intros x [w Hx]. apply Hdict in Hx.
    rewrite <- codes_symbols. apply list_elem_of_fmap. by exists (x, w). }
  unfold decode.
  rewrite (decode_loop_codewords root d s (weighted_proper _ Hw) Hv Hdict Hsym).
  simpl. apply Hdict in Hc.
  by apply (decode_loop_partial root root (weighted_proper _ Hw) Hv c p q).
Qed.

Lemma table_abc_built : construct_frequency_table (py "abc") = Ok table_abc.
Proof. vm_compute. reflexivity. Qed.

Lemma table_abc_ok : freq_table_ok table_abc.
Proof.
  destruct (string_table (py "abc")) as (ft & Hft & Hok & _).
  { vm_compute. repeat constructor. }
  rewrite table_abc_built in Hft. by injection Hft as <-.
Qed.

Lemma tree_abc_of_table : construct_huffman_tree table_abc = Ok tree_abc.
Proof. vm_compute. reflexivity. Qed.

Lemma dict_abc_of_tree : construct_dict (Some tree_abc) None None = Ok dict_abc.
Proof. vm_compute. reflexivity. Qed.

Lemma decode_drops_partial_codeword_witness :
  encode (py "cab") dict_abc = Ok (py "cab" ≫= codeword dict_abc) ∧
  decode ((py "cab" ≫= codeword dict_abc) ++ [true]) tree_abc = Ok (py "cab").
Proof.
  apply (decode_drops_partial_codeword table_abc tree_abc dict_abc
           (py "cab") 97 [true] [false]).
  - exact table_abc_ok.
  - exact tree_abc_of_table.
  - exact dict_abc_of_tree.
  - vm_compute. repeat constructor; eexists; reflexivity.
  - vm_compute. reflexivity.
  - discriminate.
Defined.

(** ** Prefix-freedom *)

Lemma codes_prefix_same t :
  proper t → NoDup (symbols t) → ∀ a b x y,
  (a, x) ∈ codes t → (b, y) ∈ codes t → x `prefix_of` y → a = b.
Proof.
  induction 1 as [c f|f l r Hl IHl Hr IHr]; intros Hnd a b x y Ha Hb Hpre.
  - rewrite codes_leaf in Ha, Hb.
    apply list_elem_of_singleton in Ha, Hb. congruence.
  - rewrite symbols_internal in Hnd. apply NoDup_app in Hnd as (Hndl & _ & Hndr).
    apply elem_of_codes_internal in Ha as [(x' & -> & Ha)|(x' & -> & Ha)];
    apply elem_of_codes_internal in Hb as [(y' & -> & Hb)|(y' & -> & Hb)];
      pose proof (prefix_cons_inv_1 _ _ _ _ Hpre) as Hbit; try discriminate;
      apply prefix_cons_inv_2 in Hpre; eauto.
Qed.

(** C6: in the dictionary of a tree built from a frequency table, the
    codewords of two distinct characters are never prefixes of one
    another. *)
Theorem dictionary_prefix_free (ft : FrequencyTable) (root : HuffmanNode) :
  freq_table_ok ft →
  construct_huffman_tree ft = Ok root →
  ∃ d, construct_dict (Some root) None None = Ok d ∧
       ∀ a b x y, a ≠ b →
         d !! a = Some (Some x) → d !! b = Some (Some y) →
         ¬ x `prefix_of` y ∧ ¬ y `prefix_of` x.
Proof.
  intros Hft Hroot.
  destruct (built_tree_dict ft root Hft Hroot) as (d & Hd & Hw & _ & _ & Hnd & [_ Hdict]).
  exists d. split; [done|]. intros a b x y Hne Ha Hb.
  apply Hdict in Ha, Hb. apply weighted_proper in Hw.
  split; intros Hpre; apply Hne.
  - by eapply (codes_prefix_same root Hw Hnd a b x y).
  - symmetry. by eapply (codes_prefix_same root Hw Hnd b a y x).
Qed.

Lemma dictionary_prefix_free_witness :
  ∃ d, construct_dict (Some tree_abc) None None = Ok d ∧
       ∀ a b x y, a ≠ b →
         d !! a = Some (Some x) → d !! b = Some (Some y) →
         ¬ x `prefix_of` y ∧ ¬ y `prefix_of` x.
Proof.
  exact (dictionary_prefix_free table_abc tree_abc table_abc_ok tree_abc_of_table).
Defined.

(** ** Rounds of the tree builder against the specification *)

Lemma select_min_None l : select_min l = None → l = [].
Proof.
  destruct l as [|x l]; [done|]. simpl.
  destruct (select_min l) as [[m r]|]; [|done]. by case_bool_decide.
Qed.

Lemma select_min_perm l m r : select_min l = Some (m, r) → l ≡ₚ m :: r.
Proof.
  revert m r. induction l as [|x l IH]; intros m r; simpl; [done|].
  destruct (select_min l) as [[m' r']|] eqn:Hl.
  - case_bool_decide; intros [= <- <-]; [|done].
    rewrite (IH m' r' eq_refl). apply Permutation_swap.
  - intros [= <- <-]. by rewrite (select_min_None l Hl).
Qed.

(** In a list in order of weight the first node is the one selected. *)
Lemma select_min_sorted x l :
  StronglySorted freq_le (x :: l) → select_min (x :: l) = Some (x, l).
Proof.
  intros Hs. apply StronglySorted_cons in Hs as [Hx _]. simpl.
  destruct (select_min l) as [[m r]|] eqn:Hl.
  - rewrite bool_decide_false; [done|].
    apply select_min_perm in Hl. rewrite Hl in Hx.
    apply Forall_cons in Hx as [Hm _]. unfold freq_le in Hm. lia.
  - by rewrite (select_min_None l Hl).
Qed.

(** Selection from two lists in a row: the second list wins only with a
    strictly smaller weight. *)
Lemma select_min_app l1 l2 :
  select_min (l1 ++ l2) =
  match select_min l1, select_min l2 with
  | None, r => r
  | Some (a, r1), None => Some (a, r1)
  | Some (a, r1), Some (b, r2) =>
      if bool_decide (freq b < freq a)%Z then Some (b, l1 ++ r2)
      else Some (a, r1 ++ l2)
  end.
Proof.
  induction l1 as [|x l1 IH]; [done|].
  change (select_min ((x :: l1) ++ l2)) with
    (match select_min (l1 ++ l2) with
     | Some (m, rest') =>
         if bool_decide (freq m < freq x)%Z then Some (m, x :: rest')
         else Some (x, l1 ++ l2)
     | None => Some (x, [])
     end).
  rewrite IH. clear IH. cbn [select_min].
  destruct (select_min l1) as [[a r1]|] eqn:H1,
           (select_min l2) as [[b r2]|] eqn:H2.
  - repeat (case_bool_decide; simpl); try done; lia.
  - apply select_min_None in H2 as ->. rewrite !app_nil_r.
    repeat (case_bool_decide; simpl); done.
  - apply select_min_None in H1 as ->. simpl.
    repeat (case_bool_decide; simpl); done.
  - apply select_min_None in H1 as ->. apply select_min_None in H2 as ->. done.
Qed.

(** The head of the sorted queue is the earliest lightest leaf in table
    order, and the rest of the queue is the sorted rest. *)
Lemma sorted_by_freq_head L x q :
  sorted_by_freq L = x :: q →
  ∃ L', select_min L = Some (x, L') ∧ sorted_by_freq L' = q ∧
        L' `sublist_of` L.
Proof.
  revert x q. induction L as [|y L IH]; intros x q; simpl; [done|].
  destruct (sorted_by_freq L) as [|z s0] eqn:Hs.
  - assert (L = []) as ->.
    { apply Permutation_nil_r. rewrite <- Hs. symmetry. apply sorted_by_freq_perm. }
    simpl. intros [= <- <-]. exists []. repeat split. apply sublist_nil_l.
  - destruct (IH z s0 eq_refl) as (L0 & Hsel & Hs0 & Hsub). rewrite Hsel.
    simpl. case_bool_decide; intros [= <- <-].
    + exists (y :: L0). simpl. rewrite Hs0. split; [done|]. split; [done|].
      by apply sublist_skip.
    + exists L. split; [done|]. split; [done|]. by apply sublist_cons.
Qed.

(** [_popmin] on the sorted leaves and the internal nodes takes what the
    specification selects from the pending nodes in insertion order. *)
Lemma popmin_selects L nq :
  StronglySorted freq_le nq → 0 < length L + length nq →
  ∃ m L1 nq1,
    _popmin (sorted_by_freq L) nq = Ok (m, sorted_by_freq L1, nq1) ∧
    select_min (L ++ nq) = Some (m, L1 ++ nq1) ∧
    L1 `sublist_of` L ∧ nq1 `suffix_of` nq.
Proof.
  intros Hnq Hlen. rewrite select_min_app. unfold _popmin.
  rewrite decide_True by (by rewrite sorted_by_freq_perm).
  destruct (sorted_by_freq L) as [|x q] eqn:Hq.
  - assert (L = []) as ->.
    { apply Permutation_nil_r. rewrite <- Hq. symmetry. apply sorted_by_freq_perm. }
    destruct nq as [|y nq]; [simpl in Hlen; lia|].
    rewrite (select_min_sorted y nq Hnq). simpl.
    exists y, [], nq. repeat split; [done|by apply suffix_cons_r].
  - destruct (sorted_by_freq_head L x q Hq) as (L' & Hsel & Hq' & Hsub).
    rewrite Hsel. destruct nq as [|y nq].
    + simpl. exists x, L', []. rewrite Hq', app_nil_r. done.
    + rewrite (select_min_sorted y nq Hnq). case_bool_decide; simpl.
      * exists y, L, nq. rewrite Hq. repeat split; [done|by apply suffix_cons_r].
      * exists x, L', (y :: nq). rewrite Hq'. done.
Qed.

(** One round of the loop against two selections of the specification. *)
Lemma merge_round_selects L nq :
  StronglySorted freq_le nq → 1 < length L + length nq →
  ∃ first rest1 second L' nq',
    select_min (L ++ nq) = Some (first, rest1) ∧
    select_min rest1 = Some (second, L' ++ nq') ∧
    merge_round (sorted_by_freq L) nq =
      Ok (sorted_by_freq L',
          nq' ++ [internal (freq first + freq second) first second]) ∧
    L' `sublist_of` L.
Proof.
  intros Hnq Hlen.
  destruct (popmin_selects L nq Hnq) as (a & L1 & nq1 & Hp1 & Hs1 & Hsub1 & Hsuf1);
    [lia|].
  assert (0 < length L1 + length nq1) as Hlen1.
  { apply select_min_perm, Permutation_length in Hs1.
    rewrite !length_app in Hs1. simpl in Hs1. rewrite length_app in Hs1. lia. }
  destruct (popmin_selects L1 nq1) as (b & L2 & nq2 & Hp2 & Hs2 & Hsub2 & Hsuf2);
    [by eapply suffix_sorted|done|].
  exists a, (L1 ++ nq1), b, L2, nq2.
  split; [done|]. split; [done|]. split; [|by etrans].
  unfold merge_round. rewrite Hp1. cbn [bind]. rewrite Hp2. done.
Qed.

Lemma loop_reaches_ordered ft q nq :
  freq_table_ok ft → loop_reaches ft q nq → queues_ordered q nq.
Proof.
  intros Hft. induction 1 as [|q nq q' nq' _ IH Hlen Hround].
  - by destruct (loop_inv_start ft Hft) as [? _].
  - by eapply merge_round_keeps_order.
Qed.

(** At every state of the loop, [queue] is the sorted list of the leaves
    that are still pending, taken in table order. *)
Lemma loop_reaches_pending ft q nq :
  freq_table_ok ft → loop_reaches ft q nq →
  ∃ L, L `sublist_of` table_nodes ft ∧ sorted_by_freq L = q.
Proof.
  intros Hft. induction 1 as [|q nq q' nq' Hreach IH Hlen Hround].
  - by exists (table_nodes ft).
  - destruct IH as (L & Hsub & <-).
    destruct (loop_reaches_ordered ft _ nq Hft Hreach) as (_ & Hnq & _).
    destruct (merge_round_selects L nq Hnq) as (a & r1 & b & L' & nq1 & _ & _ & Hr & Hsub');
      [by rewrite sorted_by_freq_perm in Hlen|].
    rewrite Hr in Hround. injection Hround as <- <-.
    exists L'. split; [by etrans|done].
Qed.

(** C7: in every round of the tree construction the two nodes taken are,
    one after the other, the node of smallest weight among the pending nodes,
    the earliest inserted one when several have that weight; the first taken
    becomes the left child and the second the right child of the new
    internal node, which weighs their sum and is inserted last.  [L] lists
    the leaves still in [queue] in table order, so that [L ++ nq] is the
    pending collection in insertion order. *)
Theorem round_merges_two_lightest
    (ft : FrequencyTable) (q nq L : list HuffmanNode) :
  freq_table_ok ft →
  loop_reaches ft q nq →
  L `sublist_of` table_nodes ft → sorted_by_freq L = q →
  1 < length q + length nq →
  ∃ first rest1 second L' nq',
    select_min (L ++ nq) = Some (first, rest1) ∧
    select_min rest1 = Some (second, L' ++ nq') ∧
    merge_round q nq =
      Ok (sorted_by_freq L',
          nq' ++ [mkHuffmanNode None (freq first + freq second)
                    (Some first) (Some second)]) ∧
    L' `sublist_of` table_nodes ft.
Proof.
  intros Hft Hreach Hsub <- Hlen.
  destruct (loop_reaches_ordered ft _ nq Hft Hreach) as (_ & Hnq & _).
  destruct (merge_round_selects L nq Hnq) as (a & r1 & b & L' & nq1 & H1 & H2 & Hr & Hsub');
    [by rewrite sorted_by_freq_perm in Hlen|].
  exists a, r1, b, L', nq1. repeat split; [done|done|done|by etrans].
Qed.

Lemma round_merges_two_lightest_witness :
  ∃ first rest1 second L' nq',
    select_min (table_nodes table_abc ++ []) = Some (first, rest1) ∧
    select_min rest1 = Some (second, L' ++ nq') ∧
    merge_round (sorted_by_freq (table_nodes table_abc)) [] =
      Ok (sorted_by_freq L',
          nq' ++ [mkHuffmanNode None (freq first + freq second)
                    (Some first) (Some second)]) ∧
    L' `sublist_of` table_nodes table_abc.
Proof.
  apply (round_merges_two_lightest table_abc
           (sorted_by_freq (table_nodes table_abc)) [] (table_nodes table_abc)).
  - exact table_abc_ok.
  - apply loop_reaches_start.
  - reflexivity.
  - reflexivity.
  - vm_compute. lia.
Defined.

(** ** Sums *)

Lemma Zsum_app l k : Zsum (l ++ k) = (Zsum l + Zsum k)%Z.
Proof. induction l as [|x l IH]; simpl; lia. Qed.

Lemma Zsum_perm l k : l ≡ₚ k → Zsum l = Zsum k.
Proof. induction 1; simpl; lia. Qed.

Lemma Zsum_nonneg l : Forall (λ x, 0 ≤ x)%Z l → (0 ≤ Zsum l)%Z.
Proof. induction 1; simpl; lia. Qed.

Lemma cost_perm A B : A ≡ₚ B → cost A = cost B.
Proof. intros H. unfold cost. apply Zsum_perm. by rewrite H. Qed.

Lemma cost_cons w l A : cost ((w, l) :: A) = (w * Z.of_nat l + cost A)%Z.
Proof. reflexivity. Qed.

Lemma ksum_perm M ls ks : ls ≡ₚ ks → ksum M ls = ksum M ks.
Proof. intros H. unfold ksum. apply Zsum_perm. by rewrite H. Qed.

Lemma ksum_cons M l ls : ksum M (l :: ls) = (2 ^ Z.of_nat (M - l) + ksum M ls)%Z.
Proof. reflexivity. Qed.

Lemma kraft_perm ls ks : ls ≡ₚ ks → kraft ls → kraft ks.
Proof.
  intros H (M & Hle & Hk). exists M. split; [by rewrite <- H|].
  by rewrite <- (ksum_perm M ls ks H).
Qed.

(** ** Exchanging lengths *)

(** The longest length can be moved to the lightest weight at no cost. *)
Lemma longest_to_lightest (B : list (Z * nat)) : ∀ w1 l1,
  Forall (λ x, w1 ≤ x.1)%Z B →
  ∃ l1' B',
    B'.*1 = B.*1 ∧ l1' :: B'.*2 ≡ₚ l1 :: B.*2 ∧
    Forall (λ x, x.2 ≤ l1') B' ∧
    (cost ((w1, l1') :: B') ≤ cost ((w1, l1) :: B))%Z.
Proof.
  induction B as [|[w l] B IH]; intros w1 l1 Hw.
  - exists l1, []. split; [done|]. split; [done|]. split; [constructor|lia].
  - apply Forall_cons in Hw as [Hw1 Hw]. simpl in Hw1.
    destruct (IH w1 l1 Hw) as (l0 & B0 & Hfst & Hperm & Hmax & Hcost).
    rewrite !cost_cons in Hcost.
    destruct (decide (l ≤ l0)) as [Hle|Hgt].
    + exists l0, ((w, l) :: B0). rewrite !fmap_cons, Hfst. simpl.
      split; [done|]. split.
      { etrans; [apply Permutation_swap|]. rewrite Hperm. apply Permutation_swap. }
      split; [by constructor|]. rewrite !cost_cons. simpl. lia.
    + exists l, ((w, l0) :: B0). rewrite !fmap_cons, Hfst. simpl.
      split; [done|]. split.
      { rewrite Hperm. apply Permutation_swap. }
      split.
      { constructor; [simpl; lia|]. eapply Forall_impl; [exact Hmax|].
        simpl. intros; lia. }
      rewrite !cost_cons. simpl. nia.
Qed.

(** ** Kraft's inequality and the two longest lengths *)

Lemma pow2_pos n : (0 < 2 ^ Z.of_nat n)%Z.
Proof. apply Z.pow_pos_nonneg; lia. Qed.

Lemma pow2_split (a b : nat) :
  (2 ^ Z.of_nat (a + b) = 2 ^ Z.of_nat a * 2 ^ Z.of_nat b)%Z.
Proof. rewrite Nat2Z.inj_add. apply Z.pow_add_r; lia. Qed.

Lemma ksum_multiple M lb ls :
  lb ≤ M → Forall (λ l, l ≤ lb) ls →
  ∃ K, (0 ≤ K)%Z ∧ ksum M ls = (2 ^ Z.of_nat (M - lb) * K)%Z.
Proof.
  intros HM. induction 1 as [|l ls Hl _ (K & HK & IH)].
  - exists 0%Z. split; [lia|]. unfold ksum. simpl. lia.
  - exists (2 ^ Z.of_nat (lb - l) + K)%Z. split.
    { pose proof (pow2_pos (lb - l)). lia. }
    rewrite ksum_cons, IH.
    replace (M - l) with ((M - lb) + (lb - l)) by lia.
    rewrite pow2_split. lia.
Qed.

(** When the two longest lengths are [la ≥ lb], Kraft's inequality still
    holds with both replaced by one length [lb - 1]. *)
Lemma kraft_merge_longest M la lb ls :
  lb ≤ la → la ≤ M → Forall (λ l, l ≤ lb) ls →
  (ksum M (la :: lb :: ls) ≤ 2 ^ Z.of_nat M)%Z →
  1 ≤ lb ∧ (ksum M ((lb - 1)%nat :: ls) ≤ 2 ^ Z.of_nat M)%Z.
Proof.
  intros Hab HaM Hls Hk.
  destruct (ksum_multiple M lb ls) as (K & HK & HKs); [lia|done|].
  rewrite !ksum_cons, HKs in Hk. rewrite ksum_cons, HKs.
  pose proof (pow2_pos (M - la)) as Hpa.
  pose proof (pow2_pos (M - lb)) as HD.
  assert (2 ^ Z.of_nat M = 2 ^ Z.of_nat (M - lb) * 2 ^ Z.of_nat lb)%Z as HM.
  { rewrite <- pow2_split. f_equal. lia. }
  rewrite HM in Hk. rewrite HM.
  set (D := (2 ^ Z.of_nat (M - lb))%Z) in *.
  assert (K + 2 ≤ 2 ^ Z.of_nat lb)%Z as Hroom by nia.
  assert (1 ≤ lb) as Hlb.
  { destruct lb; [simpl in Hroom; lia|lia]. }
  split; [done|].
  replace (M - (lb - 1)) with ((M - lb) + 1) by lia.
  rewrite pow2_split. fold D. change (2 ^ Z.of_nat 1)%Z with 2%Z. nia.
Qed.

Lemma fst_perm_cons (A : list (Z * nat)) w R :
  A.*1 ≡ₚ w :: R → ∃ l B, A ≡ₚ (w, l) :: B ∧ B.*1 ≡ₚ R.
Proof.
  intros Hperm.
  assert (w ∈ A.*1) as Hw by (rewrite Hperm; by left).
  apply list_elem_of_fmap in Hw as ([w' l] & -> & Hin).
  apply elem_of_Permutation in Hin as [B HB].
  exists l, B. split; [done|].
  rewrite HB, fmap_cons in Hperm. simpl in Hperm.
  by apply Permutation.Permutation_cons_inv in Hperm.
Qed.

(** The exchange step of Huffman's argument, on lengths: a code for weights
    whose two lightest are [w1 ≤ w2] yields a code for the weights with these
    two replaced by [w1 + w2], cheaper by at least [w1 + w2]. *)
Lemma merge_two_lightest (A : list (Z * nat)) w1 w2 R :
  A.*1 ≡ₚ w1 :: w2 :: R → kraft A.*2 →
  (0 ≤ w1)%Z → (w1 ≤ w2)%Z → Forall (λ w, w2 ≤ w)%Z R →
  ∃ A', A'.*1 ≡ₚ (w1 + w2)%Z :: R ∧ kraft A'.*2 ∧
        (cost A' + w1 + w2 ≤ cost A)%Z.
Proof.
  intros Hperm Hk Hw1 Hw12 HR.
  destruct (fst_perm_cons A w1 (w2 :: R) Hperm) as (l1 & A1 & HA & HA1).
  destruct (fst_perm_cons A1 w2 R HA1) as (l2 & B & HA1' & HB).
  assert (A ≡ₚ (w1, l1) :: (w2, l2) :: B) as HA' by (by rewrite HA, HA1').
  assert (Forall (λ x, w2 ≤ x.1)%Z B) as HwB.
  { apply (Forall_fmap fst (λ w, w2 ≤ w)%Z). by rewrite HB. }
  (* the longest length goes to [w1] *)
  destruct (longest_to_lightest ((w2, l2) :: B) w1 l1)
    as (la & B1 & Hfst1 & Hlen1 & Hmax1 & Hcost1).
  { constructor; [done|]. eapply Forall_impl; [exact HwB|]. simpl. intros; lia. }
  destruct B1 as [|[w2' l2'] B1]; [done|].
  rewrite !fmap_cons in Hfst1. simpl in Hfst1. injection Hfst1 as -> Hfst1.
  apply Forall_cons in Hmax1 as [Hmax1 Hmax1']. simpl in Hmax1.
  (* the longest remaining length goes to [w2] *)
  destruct (longest_to_lightest B1 w2 l2')
    as (lb & B2 & Hfst2 & Hlen2 & Hmax2 & Hcost2).
  { apply (Forall_fmap fst (λ w, w2 ≤ w)%Z). rewrite Hfst1.
    by apply (Forall_fmap fst (λ w, w2 ≤ w)%Z) in HwB. }
  assert (la :: lb :: B2.*2 ≡ₚ A.*2) as Hlens.
  { rewrite HA'. rewrite !fmap_cons. simpl. rewrite Hlen2.
    rewrite fmap_cons in Hlen1. simpl in Hlen1. done. }
  assert (Forall (λ l, l ≤ la) (lb :: B2.*2)) as Hla.
  { rewrite Hlen2. constructor; [done|].
    apply Forall_fmap. eapply Forall_impl; [exact Hmax1'|]. done. }
  apply Forall_cons in Hla as [Hlba Hla].
  destruct Hk as (M & HM & Hk).
  rewrite <- Hlens in HM. rewrite <- (ksum_perm M _ _ Hlens) in Hk.
  apply Forall_cons in HM as [HMa HM].
  destruct (kraft_merge_longest M la lb B2.*2) as [Hlb Hk'];
    [done|done|by apply Forall_fmap|done|].
  exists (((w1 + w2)%Z, lb - 1) :: B2).
  split; [by rewrite fmap_cons, Hfst2, Hfst1, HB|]. split.
  { exists M. rewrite fmap_cons. simpl. split; [|done].
    apply Forall_cons in HM as [HMb HM]. constructor; [lia|done]. }
  rewrite (cost_perm A _ HA'). rewrite !cost_cons in *. nia.
Qed.

(** ** Kraft's inequality for prefix-free words *)

Lemma prefix_free_with_empty cs : prefix_free cs → [] ∈ cs → cs = [[]].
Proof.
  destruct cs as [|c cs]; [intros _ Hin; by apply elem_of_nil in Hin|].
  intros [Hc _] Hin. destruct c as [|b c].
  - destruct cs as [|c' cs]; [done|].
    apply Forall_cons in Hc as [[Hc _] _]. destruct Hc. apply prefix_nil.
  - apply elem_of_cons in Hin as [|Hin]; [done|].
    rewrite Forall_forall in Hc. destruct (Hc _ Hin) as [_ Hc'].
    destruct Hc'. apply prefix_nil.
Qed.

Lemma elem_of_tails b t cs : t ∈ tails b cs ↔ b :: t ∈ cs.
Proof.
  unfold tails. rewrite list_elem_of_omap. split.
  - intros ([|b' t'] & Hin & Heq); [done|].
    destruct (decide (b' = b)) as [->|]; [|done]. by injection Heq as ->.
  - intros Hin. exists (b :: t). split; [done|]. by rewrite decide_True.
Qed.

Lemma tails_cons b b' t cs :
  tails b ((b' :: t) :: cs) =
  if decide (b' = b) then t :: tails b cs else tails b cs.
Proof. unfold tails. csimpl. by destruct (decide (b' = b)). Qed.

Lemma prefix_free_tails b cs : prefix_free cs → prefix_free (tails b cs).
Proof.
  induction cs as [|c cs IH]; [done|]. intros [Hc Hcs].
  destruct c as [|b' t]; [by apply IH|]. rewrite tails_cons.
  destruct (decide (b' = b)) as [->|]; [|by apply IH].
  split; [|by apply IH]. apply Forall_forall. intros t' Hin.
  apply elem_of_tails in Hin. rewrite Forall_forall in Hc.
  destruct (Hc _ Hin) as [H1 H2].
  split; intros Hpre; [apply H1|apply H2]; by apply prefix_cons.
Qed.

Lemma tails_lengths b M cs :
  Forall (λ c, length c ≤ S M) cs → Forall (λ c, length c ≤ M) (tails b cs).
Proof.
  intros Hcs. apply Forall_forall. intros t Hin. apply elem_of_tails in Hin.
  rewrite Forall_forall in Hcs. apply Hcs in Hin. simpl in Hin. lia.
Qed.

Lemma ksum_tails M cs :
  Forall (λ c, c ≠ []) cs →
  ksum (S M) (length <$> cs) =
  (ksum M (length <$> tails false cs) + ksum M (length <$> tails true cs))%Z.
Proof.
  induction 1 as [|c cs Hc _ IH]; [done|].
  destruct c as [|b t]; [done|]. rewrite fmap_cons, ksum_cons, IH, !tails_cons.
  cbn [length]. change (S M - S (length t)) with (M - length t).
  destruct b; [rewrite (decide_False (P:=true = false)), decide_True by done
              |rewrite decide_True, (decide_False (P:=false = true)) by done];
    rewrite fmap_cons, ksum_cons; lia.
Qed.

Lemma prefix_free_kraft M : ∀ cs,
  Forall (λ c, length c ≤ M) cs → prefix_free cs →
  (ksum M (length <$> cs) ≤ 2 ^ Z.of_nat M)%Z.
Proof.
  induction M as [|M IH]; intros cs Hlen Hpf.
  - destruct (decide ([] ∈ cs)) as [Hin|Hout].
    + rewrite (prefix_free_with_empty cs Hpf Hin). by compute.
    + destruct cs as [|c cs]; [by compute|].
      apply Forall_cons in Hlen as [Hc _]. destruct c; [|simpl in Hc; lia].
      destruct Hout. by left.
  - destruct (decide ([] ∈ cs)) as [Hin|Hout].
    + rewrite (prefix_free_with_empty cs Hpf Hin).
      rewrite fmap_cons, ksum_cons. cbn [length]. rewrite Nat.sub_0_r.
      change (ksum (S M) (length <$> [])) with 0%Z. lia.
    + rewrite ksum_tails.
      * pose proof (IH _ (tails_lengths false M cs Hlen) (prefix_free_tails false cs Hpf)).
        pose proof (IH _ (tails_lengths true M cs Hlen) (prefix_free_tails true cs Hpf)).
        replace (S M) with (M + 1) by lia. rewrite pow2_split.
        change (2 ^ Z.of_nat 1)%Z with 2%Z. lia.
      * apply Forall_forall. by intros c Hc ->.
Qed.

Lemma prefix_free_fmap {A} (f : A → list bool) (l : list A) :
  NoDup l →
  (∀ a b, a ∈ l → b ∈ l → a ≠ b → ¬ f a `prefix_of` f b) →
  prefix_free (f <$> l).
Proof.
  induction 1 as [|x l Hx Hnd IH]; intros Hf; [done|].
  rewrite fmap_cons. split.
  - apply Forall_fmap, Forall_forall. intros y Hy. simpl.
    assert (x ≠ y) by (by intros ->).
    split; apply Hf; try done; by (left || right).
  - apply IH. intros a b Ha Hb. apply Hf; by right.
Qed.

(** Pairwise prefix-free words satisfy Kraft's inequality. *)
Lemma prefix_free_is_kraft cs : prefix_free cs → kraft (length <$> cs).
Proof.
  intros Hpf. exists (max_list (length <$> cs)).
  assert (Forall (λ l, l ≤ max_list (length <$> cs)) (length <$> cs)) as Hmax.
  { apply Forall_forall. intros l Hl. by apply max_list_elem_of_le. }
  split; [done|]. apply prefix_free_kraft; [|done].
  by apply Forall_fmap in Hmax.
Qed.

(** ** The builder against every code *)

Lemma Zsum_cons x l : Zsum (x :: l) = (x + Zsum l)%Z.
Proof. reflexivity. Qed.

Lemma Zsum_fmap_add {A} (f g : A → Z) (l : list A) :
  Zsum ((λ x, f x + g x)%Z <$> l) = (Zsum (f <$> l) + Zsum (g <$> l))%Z.
Proof.
  induction l as [|x l IH]; [done|]. rewrite !fmap_cons, !Zsum_cons, IH. lia.
Qed.

Lemma Zsum_fmap_zero {A} (f : A → Z) (l : list A) :
  Forall (λ x, f x = 0%Z) l → Zsum (f <$> l) = 0%Z.
Proof.
  induction 1 as [|x l Hx _ IH]; [done|]. by rewrite fmap_cons, Zsum_cons, IH, Hx.
Qed.

Lemma wpl_leaf c f : wpl (leaf c f) = 0%Z.
Proof. unfold wpl. simpl. lia. Qed.

Lemma wpl_internal f l r :
  weighted l → weighted r →
  wpl (internal f l r) = (wpl l + wpl r + freq l + freq r)%Z.
Proof.
  intros Hl Hr. unfold wpl.
  rewrite wcodes_internal, fmap_app, Zsum_app, <- !list_fmap_compose.
  rewrite (weighted_freq l Hl), (weighted_freq r Hr). unfold leaves.
  rewrite <- !list_fmap_compose.
  assert (∀ (b : bool) t,
    Zsum ((λ x, x.1.2 * Z.of_nat (length x.2))%Z ∘
            (λ x : nat * Z * list bool, (x.1, b :: x.2)) <$> wcodes t) =
    (Zsum ((λ x, x.1.2 * Z.of_nat (length x.2))%Z <$> wcodes t) +
     Zsum (snd ∘ fst <$> wcodes t))%Z) as Hshift.
  { intros b t. rewrite <- Zsum_fmap_add. f_equal.
    apply list_fmap_ext. intros i [[c w] p] _. simpl. lia. }
  rewrite !Hshift. lia.
Qed.

Lemma merge_round_cost_inv lv q0 A0 q nq :
  loop_inv lv q0 q nq ∧ cost_inv A0 q nq → 1 < length q + length nq →
  ∃ q' nq', merge_round q nq = Ok (q', nq') ∧
            (loop_inv lv q0 q' nq' ∧ cost_inv A0 q' nq') ∧
            S (length q' + length nq') = length q + length nq.
Proof.
  intros [Hinv (A & HA & Hk & Hcost)] Hlen.
  destruct (merge_round_loop_inv lv q0 q nq Hinv Hlen) as (q' & nq' & Hr & Hinv' & Hlen').
  exists q', nq'. split; [done|]. split; [|done]. split; [done|].
  destruct Hinv as ((Hq & Hnq & Hpos & _) & [Hw _] & _).
  destruct (merge_round_ordered q nq Hq Hnq Hlen)
    as (a & b & q1 & nq1 & Hr' & Hperm & Hab & Hb & _).
  rewrite Hr in Hr'. injection Hr' as -> ->.
  assert (Zsum (wpl <$> q ++ nq) = Zsum (wpl <$> a :: b :: q1 ++ nq1)) as Hsum
    by (apply Zsum_perm; by rewrite Hperm).
  rewrite Hsum in Hcost. rewrite Hperm in HA, Hpos, Hw.
  apply Forall_cons in Hpos as [Ha0 _].
  apply Forall_cons in Hw as [Hwa Hw]. apply Forall_cons in Hw as [Hwb _].
  rewrite !fmap_cons in HA, Hcost. simpl in Hcost.
  destruct (merge_two_lightest A (freq a) (freq b) (freq <$> q1 ++ nq1))
    as (A' & HA' & Hk' & Hcost'); [done|done|done|done|by apply Forall_fmap|].
  exists A'. split; [|split; [done|]].
  - rewrite HA', (app_assoc q1 nq1), (fmap_app freq (q1 ++ nq1)).
    apply Permutation_cons_append.
  - rewrite (app_assoc q1 nq1), (fmap_app wpl (q1 ++ nq1)), Zsum_app.
    rewrite fmap_cons, Zsum_cons, (wpl_internal _ a b Hwa Hwb).
    change (Zsum (wpl <$> [])) with 0%Z. lia.
Qed.

(** The tree of the builder costs no more than any code for the weights of
    the table that satisfies Kraft's inequality. *)
Lemma construct_huffman_tree_cost ft root A0 :
  freq_table_ok ft → construct_huffman_tree ft = Ok root →
  A0.*1 ≡ₚ freq <$> table_nodes ft → kraft A0.*2 →
  (wpl root ≤ cost A0)%Z.
Proof.
  intros Hft Hroot HA0 Hk0. pose proof (built_at_least_two ft root Hroot) as Hlen.
  unfold construct_huffman_tree in Hroot. fold (table_nodes ft) in Hroot.
  set (q0 := sorted_by_freq (table_nodes ft)) in *.
  assert (q0 ≡ₚ table_nodes ft) as Hq0 by apply sorted_by_freq_perm.
  destruct (merge_loop_invariant
              (λ q nq, loop_inv (table_nodes ft ≫= leaves) q0 q nq ∧ cost_inv A0 q nq)
              (merge_round_cost_inv _ q0 A0) (length q0) q0 [])
    as (q' & nq' & Hloop & [(_ & [Hw _] & _ & Hne) (A & HA & _ & Hcost)] & Hle).
  { split; [by apply loop_inv_start|]. exists A0. rewrite app_nil_r.
    split; [by rewrite Hq0|]. split; [done|].
    rewrite Zsum_fmap_zero; [lia|].
    rewrite Hq0. apply Forall_forall. intros n Hn.
    destruct (table_nodes_leaf ft n Hft Hn) as (c & f & -> & _). apply wpl_leaf. }
  { rewrite length_nil. lia. }
  rewrite Hloop in Hroot. cbn [bind] in Hroot.
  destruct Hne as [Hne|[-> ->]].
  2:{ rewrite Hq0 in Hle. simpl in Hle. lia. }
  destruct nq' as [|root' nq']; [done|]. simpl in Hle.
  destruct q', nq'; simpl in Hle; try lia.
  injection Hroot as ->. simpl in HA, Hcost, Hw.
  rewrite Forall_singleton in Hw. pose proof (weighted_freq_pos root Hw) as Hpos.
  apply Permutation_singleton_r in HA.
  destruct A as [|[w l] [|? ?]]; try done. injection HA as ->.
  rewrite cost_cons in Hcost. change (cost []) with 0%Z in Hcost.
  simpl in Hcost. nia.
Qed.

(** ** Counting characters *)

Lemma count_char_Ok ft c ft' :
  count_char ft c = Ok ft' → c < length ft ∧ length ft' = length ft.
Proof.
  unfold count_char, getitem, setitem.
  destruct (ft !! c) as [o|] eqn:Hc; [|done]. cbn [bind].
  apply lookup_lt_Some in Hc. rewrite decide_True by done.
  intros [= <-]. by rewrite length_insert.
Qed.

Lemma for_each_count_char_bytes s : ∀ ft ft',
  for_each count_char ft s = Ok ft' → Forall (λ c, c < length ft) s.
Proof.
  induction s as [|c s IH]; intros ft ft' Hs; [constructor|].
  cbn [for_each] in Hs. apply bind_Ok in Hs as (ft1 & H1 & Hs).
  apply count_char_Ok in H1 as [Hc Hlen]. constructor; [done|].
  rewrite <- Hlen. by eapply IH.
Qed.

Lemma construct_frequency_table_bytes s ft :
  construct_frequency_table s = Ok ft → bytes s.
Proof.
  intros Hft. apply for_each_count_char_bytes in Hft.
  by rewrite length_replicate in Hft.
Qed.

Lemma occ_elem_of c s : 0 < occ c s → c ∈ s.
Proof.
  unfold occ. intros Hpos.
  destruct (filter (λ x, x = c) s) as [|x l] eqn:Hf; [simpl in Hpos; lia|].
  assert (x ∈ filter (λ x, x = c) s) as Hin by (rewrite Hf; by left).
  apply list_elem_of_filter in Hin as [-> Hin]. done.
Qed.

Lemma remove_dups_alphabet s : bytes s → remove_dups s ≡ₚ alphabet s.
Proof.
  intros Hs. apply NoDup_Permutation.
  - apply NoDup_remove_dups.
  - apply NoDup_filter, NoDup_seq.
  - intros c. rewrite elem_of_remove_dups. unfold alphabet.
    rewrite list_elem_of_filter, elem_of_seq. split.
    + intros Hc. split; [by apply occ_pos|].
      unfold bytes in Hs. rewrite Forall_forall in Hs. apply Hs in Hc. lia.
    + intros [Hc _]. by apply occ_elem_of.
Qed.

Lemma omap_entry (g : nat → nat) (l : list nat) :
  omap (λ i, entry i (g i)) l =
  (λ c, leaf c (Z.of_nat (g c))) <$> filter (λ c, 0 < g c) l.
Proof.
  induction l as [|i l IH]; [done|]. csimpl. rewrite filter_cons, IH.
  destruct (decide (0 < g i)) as [Hpos|Hz].
  - rewrite fmap_cons. destruct (g i) eqn:Hg; [lia|]. done.
  - by replace (g i) with 0 by lia.
Qed.

Lemma table_nodes_alphabet ft s :
  table_counts ft (λ i, occ i s) →
  table_nodes ft = (λ c, leaf c (Z.of_nat (occ c s))) <$> alphabet s.
Proof.
  intros Hft. rewrite (table_nodes_counts ft _ Hft).
  apply (omap_entry (λ i, occ i s)).
Qed.

Lemma frequency_occ ft s c :
  table_counts ft (λ i, occ i s) → c < ASCII_MAX →
  frequency ft c = Z.of_nat (occ c s).
Proof.
  intros [_ Hft] Hc. unfold frequency. rewrite (Hft c Hc).
  by destruct (occ c s).
Qed.

Lemma Zsum_indicator (h : nat → Z) (x : nat) (l : list nat) :
  NoDup l → x ∈ l →
  Zsum ((λ c, (if decide (x = c) then 1 else 0) * h c)%Z <$> l) = h x.
Proof.
  induction 1 as [|y l Hy Hnd IH]; intros Hx; [by apply elem_of_nil in Hx|].
  rewrite fmap_cons, Zsum_cons. apply elem_of_cons in Hx as [->|Hx].
  - rewrite decide_True by done. rewrite Zsum_fmap_zero; [lia|].
    apply Forall_forall. intros c Hc. rewrite decide_False; [lia|].
    by intros ->.
  - rewrite IH by done. rewrite decide_False; [lia|]. by intros ->.
Qed.

(** A sum over the characters of a string, by distinct character. *)
Lemma Zsum_by_character (h : nat → Z) (s : str) (l : list nat) :
  NoDup l → Forall (λ x, x ∈ l) s →
  Zsum (h <$> s) = Zsum ((λ c, Z.of_nat (occ c s) * h c)%Z <$> l).
Proof.
  intros Hnd. induction 1 as [|x s Hx _ IH].
  - symmetry. apply Zsum_fmap_zero. apply Forall_forall. by intros c _.
  - rewrite fmap_cons, Zsum_cons, IH, <- (Zsum_indicator h x l Hnd Hx).
    rewrite <- Zsum_fmap_add. f_equal. apply list_fmap_ext.
    intros i c _. simpl. rewrite occ_cons. destruct (decide (x = c)); lia.
Qed.

Lemma length_bind_codewords (g : nat → list bool) (s : str) :
  Z.of_nat (length (s ≫= g)) = Zsum ((λ c, Z.of_nat (length (g c))) <$> s).
Proof.
  induction s as [|c s IH]; [done|].
  rewrite bind_cons, length_app, fmap_cons, Zsum_cons. lia.
Qed.

(** The length of the concatenated codewords is frequency times codeword
    length, summed over the distinct characters. *)
Lemma encoded_length ft s d :
  bytes s → table_counts ft (λ i, occ i s) →
  Z.of_nat (length (s ≫= codeword d)) = total_length ft s d.
Proof.
  intros Hs Hft. rewrite length_bind_codewords. unfold total_length.
  rewrite (Zsum_by_character _ s (remove_dups s)).
  - f_equal. apply list_fmap_ext. intros i c Hc.
    apply list_elem_of_lookup_2 in Hc. rewrite elem_of_remove_dups in Hc.
    simpl. rewrite (frequency_occ ft s c Hft); [done|].
    unfold bytes in Hs. rewrite Forall_forall in Hs. by apply Hs.
  - apply NoDup_remove_dups.
  - apply Forall_forall. intros x Hx. by apply elem_of_remove_dups.
Qed.

(** ** The encoded length and its optimality *)

Lemma eq_Permutation {A} (l k : list A) : l = k → l ≡ₚ k.
Proof. by intros ->. Qed.

Lemma table_leaves_alphabet ft s :
  table_counts ft (λ i, occ i s) →
  table_nodes ft ≫= leaves = (λ c, (c, Z.of_nat (occ c s))) <$> alphabet s.
Proof.
  intros Hft. rewrite (table_nodes_alphabet ft s Hft).
  induction (alphabet s) as [|c l IH]; [done|].
  by rewrite !fmap_cons, bind_cons, IH.
Qed.

Lemma codeword_of_leaf root d x :
  dict_of root d → x ∈ wcodes root → codeword d x.1.1 = x.2.
Proof.
  intros [_ Hd] Hx. unfold codeword.
  assert ((x.1.1, x.2) ∈ codes root) as Hin.
  { unfold codes. apply list_elem_of_fmap. by exists x. }
  apply Hd in Hin. by rewrite Hin.
Qed.

(** The weighted path length of the tree is the total length of its
    dictionary on the input. *)
Lemma wpl_total_length ft s root d :
  bytes s → table_counts ft (λ i, occ i s) →
  leaves root ≡ₚ table_nodes ft ≫= leaves → dict_of root d →
  wpl root = total_length ft s d.
Proof.
  intros Hs Hft Hlv Hd. unfold wpl, total_length.
  transitivity
    (Zsum ((λ y, y.2 * Z.of_nat (length (codeword d y.1)))%Z <$> leaves root)).
  { unfold leaves. rewrite <- list_fmap_compose. f_equal.
    apply list_fmap_ext. intros i x Hx. apply list_elem_of_lookup_2 in Hx.
    simpl. by rewrite (codeword_of_leaf root d x Hd Hx). }
  rewrite (Zsum_perm _ _ (fmap_Permutation _ _ _ Hlv)).
  rewrite (table_leaves_alphabet ft s Hft), <- list_fmap_compose.
  rewrite <- (Zsum_perm _ _ (fmap_Permutation _ _ _ (remove_dups_alphabet s Hs))).
  f_equal. apply list_fmap_ext. intros i c Hc. simpl.
  apply list_elem_of_lookup_2 in Hc. rewrite elem_of_remove_dups in Hc.
  rewrite (frequency_occ ft s c Hft); [done|].
  unfold bytes in Hs. rewrite Forall_forall in Hs. by apply Hs.
Qed.

(** A prefix code for the input is, as weights and lengths, a code for the
    weights of the table that satisfies Kraft's inequality. *)
Lemma prefix_code_assignment ft s d' :
  bytes s → table_counts ft (λ i, occ i s) → prefix_code_for s d' →
  ∃ A, A.*1 ≡ₚ freq <$> table_nodes ft ∧ kraft A.*2 ∧
       cost A = total_length ft s d'.
Proof.
  intros Hs Hft [_ Hpf].
  exists ((λ c, (frequency ft c, length (codeword d' c))) <$> remove_dups s).
  split; [|split].
  - rewrite <- list_fmap_compose, (table_nodes_alphabet ft s Hft),
      <- list_fmap_compose, (remove_dups_alphabet s Hs).
    apply eq_Permutation, list_fmap_ext. intros i c Hc. simpl.
    apply list_elem_of_lookup_2 in Hc. unfold alphabet in Hc.
    apply list_elem_of_filter in Hc as [_ Hc]. apply elem_of_seq in Hc.
    apply (frequency_occ ft s c Hft). lia.
  - rewrite <- list_fmap_compose.
    rewrite (list_fmap_compose (codeword d') length).
    apply prefix_free_is_kraft, prefix_free_fmap; [apply NoDup_remove_dups|].
    intros a b Ha Hb. apply Hpf; by apply elem_of_remove_dups.
  - unfold cost, total_length. by rewrite <- list_fmap_compose.
Qed.

(** C9: for an input with its frequency table, tree and dictionary built,
    the length of the encoding is the sum over the distinct characters of the
    input of frequency times codeword length, and no prefix-free binary code
    for these characters gives a smaller sum (or a shorter encoding). *)
Theorem encoded_length_is_optimal
    (s : str) (ft : FrequencyTable) (root : HuffmanNode) (d : Dictionary) :
  construct_frequency_table s = Ok ft →
  construct_huffman_tree ft = Ok root →
  construct_dict (Some root) None None = Ok d →
  ∃ bits,
    encode s d = Ok bits ∧
    Z.of_nat (length bits) = total_length ft s d ∧
    prefix_code_for s d ∧
    ∀ d', prefix_code_for s d' →
      (total_length ft s d ≤ total_length ft s d')%Z ∧
      ∃ bits', encode s d' = Ok bits' ∧ length bits ≤ length bits'.
Proof.
  intros Hft Hroot Hd.
  pose proof (construct_frequency_table_bytes s ft Hft) as Hs.
  destruct (string_table s Hs) as (ft' & Hft' & Hok & Hcount & Hin).
  rewrite Hft in Hft'. injection Hft' as <-.
  destruct (built_tree_dict ft root Hok Hroot)
    as (d0 & Hd0 & Hw & Hv & Hlv & Hnd & Hdict).
  rewrite Hd in Hd0. injection Hd0 as <-.
  assert (Forall (has_codeword d) s) as Hcw.
  { apply Forall_forall. intros c Hc.
    assert (c ∈ symbols root) as Hsym.
    { unfold symbols. rewrite Hlv. apply list_elem_of_fmap.
      exists (c, Z.of_nat (occ c s)). split; [done|].
      apply list_elem_of_bind. exists (leaf c (Z.of_nat (occ c s))).
      split; [by left|by apply Hin]. }
    rewrite <- codes_symbols in Hsym.
    apply list_elem_of_fmap in Hsym as ([c' p] & -> & Hp).
    exists p. by apply Hdict. }
  exists (s ≫= codeword d). split; [by apply encode_codewords|].
  split; [by apply encoded_length|].
  split.
  { split; [done|]. intros a b Ha Hb Hne Hpre. apply Hne.
    rewrite Forall_forall in Hcw.
    destruct (Hcw a Ha) as [x Hx], (Hcw b Hb) as [y Hy].
    unfold codeword in Hpre. rewrite Hx, Hy in Hpre. simpl in Hpre.
    destruct Hdict as [_ Hdict]. apply Hdict in Hx, Hy.
    by apply (codes_prefix_same root (weighted_proper _ Hw) Hnd a b x y). }
  intros d' Hd'.
  destruct (prefix_code_assignment ft s d' Hs Hcount Hd') as (A & HA & Hk & Hcost).
  assert (total_length ft s d ≤ total_length ft s d')%Z as Hopt.
  { rewrite <- (wpl_total_length ft s root d Hs Hcount Hlv Hdict), <- Hcost.
    by apply (construct_huffman_tree_cost ft root A). }
  split; [done|]. exists (s ≫= codeword d').
  split; [apply encode_codewords; by destruct Hd'|].
  rewrite <- !(encoded_length ft s) in Hopt by done. lia.
Qed.

Lemma encoded_length_is_optimal_witness :
  ∃ bits,
    encode (py "abc") dict_abc = Ok bits ∧
    Z.of_nat (length bits) = total_length table_abc (py "abc") dict_abc ∧
    prefix_code_for (py "abc") dict_abc ∧
    ∀ d', prefix_code_for (py "abc") d' →
      (total_length table_abc (py "abc") dict_abc
       ≤ total_length table_abc (py "abc") d')%Z ∧
      ∃ bits', encode (py "abc") d' = Ok bits' ∧ length bits ≤ length bits'.
Proof.
  exact (encoded_length_is_optimal (py "abc") table_abc tree_abc dict_abc
           table_abc_built tree_abc_of_table dict_abc_of_tree).
Defined.

(** * Further properties of the module *)

(** ** [construct_frequency_table] *)

(** X1: for a single-byte string the table has [ASCII_MAX] slots, and the
    slot of a character holds its leaf with the number of its occurrences, or
    [None] when it does not occur. *)
Theorem frequency_table_counts (s : str) :
  bytes s →
  ∃ ft, construct_frequency_table s = Ok ft ∧ length ft = ASCII_MAX ∧
        ∀ c, c < ASCII_MAX → ft !! c = Some (entry c (occ c s)).
Proof.
  intros Hs.
  destruct (construct_frequency_table_counts s Hs) as (ft & Hft & Hlen & Hc).
  by exists ft.
Qed.

Lemma frequency_table_counts_witness :
  ∃ ft, construct_frequency_table (py "abb") = Ok ft ∧ length ft = ASCII_MAX ∧
        ∀ c, c < ASCII_MAX → ft !! c = Some (entry c (occ c (py "abb"))).
Proof.
  apply (frequency_table_counts (py "abb")). vm_compute. repeat constructor.
Defined.

Lemma count_char_in_range ft c :
  c < length ft → ∃ ft', count_char ft c = Ok ft' ∧ length ft' = length ft.
Proof.
  intros Hc. unfold count_char, getitem, setitem.
  destruct (lookup_lt_is_Some_2 ft c Hc) as [o ->]. cbn [bind].
  rewrite decide_True by done. eexists. split; [done|]. by rewrite length_insert.
Qed.

Lemma for_each_count_char_out_of_range s : ∀ ft,
  ¬ Forall (λ c, c < length ft) s →
  for_each count_char ft s = Raise IndexError.
Proof.
  induction s as [|c s IH]; intros ft Hs; [destruct Hs; constructor|].
  cbn [for_each]. destruct (decide (c < length ft)) as [Hc|Hc].
  - destruct (count_char_in_range ft c Hc) as (ft' & -> & Hlen). cbn [bind].
    apply IH. rewrite Hlen. intros Hs'. apply Hs. by constructor.
  - unfold count_char, getitem. rewrite lookup_ge_None_2 by lia. done.
Qed.

(** X2: a string with a character whose code is not below [ASCII_MAX] has
    no table: indexing the table with that code raises [IndexError]. *)
Theorem frequency_table_out_of_range (s : str) :
  ¬ bytes s → construct_frequency_table s = Raise IndexError.
Proof.
  intros Hs. apply for_each_count_char_out_of_range.
  by rewrite length_replicate.
Qed.

Lemma frequency_table_out_of_range_witness :
  construct_frequency_table [97; 300] = Raise IndexError.
Proof.
  apply frequency_table_out_of_range. unfold bytes, ASCII_MAX.
  intros H. apply Forall_cons in H as [_ H]. apply Forall_cons in H as [H _]. lia.
Defined.

Lemma occ_perm c s1 s2 : s1 ≡ₚ s2 → occ c s1 = occ c s2.
Proof. intros H. unfold occ. by rewrite H. Qed.

(** X3: the table depends on the number of occurrences of each character
    only: two strings that are rearrangements of one another have the same
    table. *)
Theorem frequency_table_of_rearrangement (s1 s2 : str) :
  bytes s1 → s1 ≡ₚ s2 →
  construct_frequency_table s1 = construct_frequency_table s2.
Proof.
  intros Hs1 Hperm. assert (bytes s2) as Hs2 by (unfold bytes; by rewrite <- Hperm).
  destruct (construct_frequency_table_counts s1 Hs1) as (ft1 & -> & H1).
  destruct (construct_frequency_table_counts s2 Hs2) as (ft2 & -> & H2).
  f_equal. rewrite (table_counts_eq _ _ H1), (table_counts_eq _ _ H2).
  apply list_fmap_ext. intros i c _. by rewrite (occ_perm c s1 s2 Hperm).
Qed.

Lemma frequency_table_of_rearrangement_witness :
  construct_frequency_table (py "abb") = construct_frequency_table (py "bab").
Proof.
  apply frequency_table_of_rearrangement.
  - vm_compute. repeat constructor.
  - vm_compute. apply Permutation_swap.
Defined.

(** ** [_popmin] and [construct_huffman_tree] *)

(** X4: given two lists in order of weight with at least one node between
    them, [_popmin] returns a node of smallest weight among all of them and
    removes exactly that node. *)
Theorem popmin_returns_minimum (list1 list2 : list HuffmanNode) :
  StronglySorted freq_le list1 → StronglySorted freq_le list2 →
  0 < length list1 + length list2 →
  ∃ node list1' list2',
    _popmin list1 list2 = Ok (node, list1', list2') ∧
    list1 ++ list2 ≡ₚ node :: list1' ++ list2' ∧
    Forall (λ other, freq node ≤ freq other)%Z (list1 ++ list2).
Proof.
  intros H1 H2 Hlen.
  destruct (popmin_ordered list1 list2 H1 H2 Hlen)
    as (x & l1 & l2 & Hpop & Hperm & Hmin & _).
  exists x, l1, l2. split; [done|]. split; [done|].
  rewrite Hperm. constructor; [lia|done].
Qed.

Lemma popmin_returns_minimum_witness :
  ∃ node list1' list2',
    _popmin [leaf 99 1; leaf 97 2] [internal 2 (leaf 98 1) (leaf 100 1)]
      = Ok (node, list1', list2') ∧
    [leaf 99 1; leaf 97 2] ++ [internal 2 (leaf 98 1) (leaf 100 1)]
      ≡ₚ node :: list1' ++ list2' ∧
    Forall (λ other, freq node ≤ freq other)%Z
      ([leaf 99 1; leaf 97 2] ++ [internal 2 (leaf 98 1) (leaf 100 1)]).
Proof.
  apply popmin_returns_minimum.
  - repeat constructor. unfold freq_le. simpl. lia.
  - repeat constructor.
  - simpl. lia.
Defined.

Lemma merge_round_appends q nq :
  1 < length q + length nq →
  ∃ q' nq' node,
    merge_round q nq = Ok (q', nq' ++ [node]) ∧
    S (length q' + length (nq' ++ [node])) = length q + length nq.
Proof.
  intros Hlen. unfold merge_round.
  destruct (popmin_cases q nq) as (a & q1 & nq1 & -> & Hcase1); [lia|].
  cbn [bind].
  assert (S (length q1 + length nq1) = length q + length nq) as Hlen1
    by (destruct Hcase1 as [(-> & -> & _)|(-> & -> & _)]; simpl; lia).
  destruct (popmin_cases q1 nq1) as (b & q2 & nq2 & -> & Hcase2); [lia|].
  cbn [bind]. eexists _, _, _. split; [done|]. rewrite length_app. simpl.
  destruct Hcase2 as [(-> & -> & _)|(-> & -> & _)]; simpl in *; lia.
Qed.

(** X5: on every table, well formed or not, the builder returns a tree when
    the table has at least two entries and raises [IndexError] otherwise; the
    assertion of [_popmin] never fails inside the builder. *)
Theorem builder_result_by_entry_count (ft : FrequencyTable) :
  (1 < length (table_nodes ft) → ∃ root, construct_huffman_tree ft = Ok root) ∧
  (length (table_nodes ft) ≤ 1 → construct_huffman_tree ft = Raise IndexError).
Proof.
  split; [|apply construct_huffman_tree_small].
  intros Hlen. unfold construct_huffman_tree. fold (table_nodes ft).
  set (q0 := sorted_by_freq (table_nodes ft)).
  assert (length q0 = length (table_nodes ft)) as Hq0
    by (apply Permutation_length, sorted_by_freq_perm).
  destruct (merge_loop_invariant (λ q nq, nq ≠ [] ∨ (q = q0 ∧ nq = [])))
    with (fuel := length q0) (q := q0) (nq := @nil HuffmanNode)
    as (q' & nq' & -> & Hne & Hle).
  - intros q nq _ Hl.
    destruct (merge_round_appends q nq Hl) as (q' & nq' & n & Hr & Hl').
    exists q', (nq' ++ [n]). split; [done|]. split; [|done].
    left. apply snoc_not_nil.
  - by right.
  - simpl. lia.
  - cbn [bind]. destruct Hne as [Hne|[-> ->]]; [|simpl in Hle; lia].
    destruct nq' as [|root nq']; [done|]. by exists root.
Qed.

(** X6: from a well-formed table with at least two entries the builder
    returns a tree whose root is internal, whose leaves are exactly the
    entries of the table, each once, and in which every internal node has two
    children and weighs the sum of their weights. *)
Theorem built_tree_shape (ft : FrequencyTable) :
  freq_table_ok ft → 1 < length (table_nodes ft) →
  ∃ root, construct_huffman_tree ft = Ok root ∧
          weighted root ∧ value root = None ∧
          leaves root ≡ₚ table_nodes ft ≫= leaves ∧
          NoDup (symbols root).
Proof.
  intros Hft Hlen.
  destruct (tree_and_dict_built ft Hft Hlen)
    as (root & d & Hroot & _ & Hw & Hv & Hlv & Hnd & _).
  by exists root.
Qed.

Lemma table_abc_two_entries : 1 < length (table_nodes table_abc).
Proof. vm_compute. lia. Qed.

Lemma built_tree_shape_witness :
  ∃ root, construct_huffman_tree table_abc = Ok root ∧
          weighted root ∧ value root = None ∧
          leaves root ≡ₚ table_nodes table_abc ≫= leaves ∧
          NoDup (symbols root).
Proof.
  exact (built_tree_shape table_abc table_abc_ok table_abc_two_entries).
Defined.

(** A property of the two lists that holds at the start of the loop and is
    kept by every round holds of the tree the builder returns. *)
Lemma builder_invariant ft root (P : list HuffmanNode → list HuffmanNode → Prop) :
  freq_table_ok ft → construct_huffman_tree ft = Ok root →
  P (sorted_by_freq (table_nodes ft)) [] →
  (∀ q nq a b q1 nq1,
     P q nq → forest_ok q nq →
     q ++ nq ≡ₚ a :: b :: q1 ++ nq1 → (freq a ≤ freq b)%Z →
     P q1 (nq1 ++ [internal (freq a + freq b) a b])) →
  P [] [root].
Proof.
  intros Hft Hroot Hstart Hstep.
  pose proof (built_at_least_two ft root Hroot) as Hlen.
  unfold construct_huffman_tree in Hroot. fold (table_nodes ft) in Hroot.
  set (q0 := sorted_by_freq (table_nodes ft)) in *.
  assert (q0 ≡ₚ table_nodes ft) as Hq0 by apply sorted_by_freq_perm.
  destruct (merge_loop_invariant
              (λ q nq, loop_inv (table_nodes ft ≫= leaves) q0 q nq ∧ P q nq))
    with (fuel := length q0) (q := q0) (nq := @nil HuffmanNode)
    as (q' & nq' & Hloop & [(_ & _ & _ & Hne) HP] & Hle).
  - intros q nq [Hinv HP] Hl.
    destruct (merge_round_loop_inv _ q0 q nq Hinv Hl) as (q' & nq' & Hr & Hinv' & Hl').
    exists q', nq'. split; [done|]. split; [|done]. split; [done|].
    destruct Hinv as ((Hq & Hnq & _) & Hforest & _).
    destruct (merge_round_ordered q nq Hq Hnq Hl)
      as (a & b & q1 & nq1 & Hr' & Hperm & Hab & _).
    rewrite Hr in Hr'. injection Hr' as -> ->. by eapply Hstep.
  - split; [by apply loop_inv_start|done].
  - simpl. lia.
  - rewrite Hloop in Hroot. cbn [bind] in Hroot.
    destruct Hne as [Hne|[-> ->]].
    2:{ rewrite Hq0 in Hle. simpl in Hle. lia. }
    destruct nq' as [|root' nq']; [done|]. simpl in Hle.
    destruct q', nq'; simpl in Hle; try lia.
    by injection Hroot as ->.
Qed.

(** X7: in the tree the builder returns, the left child of every internal
    node weighs no more than the right child. *)
Theorem built_tree_left_lighter (ft : FrequencyTable) (root : HuffmanNode) :
  freq_table_ok ft → construct_huffman_tree ft = Ok root → left_lighter root.
Proof.
  intros Hft Hroot.
  pose proof (builder_invariant ft root (λ q nq, Forall left_lighter (q ++ nq))
                Hft Hroot) as H.
  simpl in H. rewrite <- Forall_singleton. apply H.
  - rewrite app_nil_r, sorted_by_freq_perm. apply Forall_forall. intros n Hn.
    destruct (table_nodes_leaf ft n Hft Hn) as (c & f & -> & _). constructor.
  - intros q nq a b q1 nq1 HP _ Hperm Hab. rewrite Hperm in HP.
    apply Forall_cons in HP as [Ha HP]. apply Forall_cons in HP as [Hb HP].
    rewrite app_assoc. apply Forall_app. split; [done|].
    repeat constructor; done.
Qed.

Lemma built_tree_left_lighter_witness : left_lighter tree_abc.
Proof.
  exact (built_tree_left_lighter table_abc tree_abc table_abc_ok tree_abc_of_table).
Defined.

Lemma Zsum_ones {A} (l : list A) : Zsum ((λ _, 1%Z) <$> l) = Z.of_nat (length l).
Proof.
  induction l as [|x l IH]; [done|]. rewrite fmap_cons, Zsum_cons, IH. simpl length. lia.
Qed.

Lemma alphabet_covers s : bytes s → NoDup (alphabet s) ∧ Forall (λ x, x ∈ alphabet s) s.
Proof.
  intros Hs. split; [apply NoDup_filter, NoDup_seq|].
  apply Forall_forall. intros x Hx.
  rewrite <- (remove_dups_alphabet s Hs). by apply elem_of_remove_dups.
Qed.

(** X8: the weight of the root of the tree built for a string is the length
    of the string. *)
Theorem built_root_weight (s : str) (ft : FrequencyTable) (root : HuffmanNode) :
  construct_frequency_table s = Ok ft →
  construct_huffman_tree ft = Ok root →
  freq root = Z.of_nat (length s).
Proof.
  intros Hft Hroot.
  pose proof (construct_frequency_table_bytes s ft Hft) as Hs.
  destruct (string_table s Hs) as (ft' & Hft' & Hok & Hcount & _).
  rewrite Hft in Hft'. injection Hft' as <-.
  destruct (built_tree_dict ft root Hok Hroot) as (d & _ & Hw & _ & Hlv & _).
  destruct (alphabet_covers s Hs) as [Hnd Hcov].
  rewrite (weighted_freq root Hw).
  rewrite (Zsum_perm _ _ (fmap_Permutation snd _ _ Hlv)).
  rewrite (table_leaves_alphabet ft s Hcount), <- list_fmap_compose.
  rewrite <- Zsum_ones, (Zsum_by_character _ s (alphabet s) Hnd Hcov).
  f_equal. apply list_fmap_ext. intros i c _. simpl. lia.
Qed.

Lemma built_root_weight_witness : freq tree_abc = Z.of_nat (length (py "abc")).
Proof.
  exact (built_root_weight (py "abc") table_abc tree_abc
           table_abc_built tree_abc_of_table).
Defined.

(** ** [construct_dict] *)

(** X9: on a tree in which every node is a leaf with one character or has
    two children and no character, with distinct characters below
    [ASCII_MAX], [construct_dict] returns [ASCII_MAX] slots: the slot of a
    character of the tree holds the path to its leaf ([False] for left,
    [True] for right), every other slot holds [None]. *)
Theorem construct_dict_stores_paths (t : HuffmanNode) :
  proper t → NoDup (symbols t) → Forall (λ c, c < ASCII_MAX) (symbols t) →
  ∃ d, construct_dict (Some t) None None = Ok d ∧
       length d = ASCII_MAX ∧
       (∀ c p, (c, p) ∈ codes t → d !! c = Some (Some p)) ∧
       (∀ c, c < ASCII_MAX → c ∉ symbols t → d !! c = Some None).
Proof.
  intros Ht Hnd Hlt. exists (assign (codes t) (replicate ASCII_MAX None)).
  split; [by apply construct_dict_proper|].
  destruct (assign_dict_of t Hnd Hlt) as [Hlen Hd].
  split; [done|]. split; [intros c p; apply Hd|].
  intros c Hc Hout. rewrite assign_lookup_other by (by rewrite codes_symbols).
  by apply lookup_replicate_2.
Qed.

Lemma construct_dict_stores_paths_witness :
  ∃ d, construct_dict (Some tree_abc) None None = Ok d ∧
       length d = ASCII_MAX ∧
       (∀ c p, (c, p) ∈ codes tree_abc → d !! c = Some (Some p)) ∧
       (∀ c, c < ASCII_MAX → c ∉ symbols tree_abc → d !! c = Some None).
Proof.
  apply construct_dict_stores_paths.
  - repeat constructor.
  - apply (bool_decide_unpack _). vm_compute. exact I.
  - vm_compute. repeat constructor; lia.
Defined.



(** X11: a node whose character has a code that is not below [ASCII_MAX]
    makes [construct_dict] raise [IndexError], and a node whose value has more
    than one character makes it raise [TypeError] (from [ord]); both at the
    root, whatever the children are. *)
Theorem construct_dict_bad_value (node : HuffmanNode) (v : str) :
  value node = Some v →
  (∀ c, v = [c] → ASCII_MAX ≤ c →
     construct_dict (Some node) None None = Raise IndexError) ∧
  (1 < length v → construct_dict (Some node) None None = Raise TypeError).
Proof.
  intros Hv. destruct node as [v' f l r]. simpl in Hv. subst v'. split.
  - intros c -> Hc. rewrite construct_dict_unfold.
    change (enter_dict None None) with (replicate ASCII_MAX (@None (list bool)), @nil bool).
    cbn [value str_truthy default ord bind]. unfold id, setitem. cbn [ord bind].
    destruct (decide (c < length (replicate ASCII_MAX (@None (list bool)))))
      as [Hlt|_]; [rewrite length_replicate in Hlt; lia|done].
  - intros Hlen. destruct v as [|c1 [|c2 v]]; simpl in Hlen; try lia.
    rewrite construct_dict_unfold.
    change (enter_dict None None) with (replicate ASCII_MAX (@None (list bool)), @nil bool).
    done.
Qed.

Lemma construct_dict_bad_value_witness :
  (∀ c, [300] = [c] → ASCII_MAX ≤ c →
     construct_dict (Some (leaf 300 1)) None None = Raise IndexError) ∧
  (1 < length [300] →
     construct_dict (Some (leaf 300 1)) None None = Raise TypeError).
Proof.
  apply (construct_dict_bad_value (leaf 300 1) [300]). reflexivity.
Defined.

(** ** [encode] *)

Lemma encode_from_inv d s : ∀ out bits,
  for_each (encode_char d) out s = Ok bits →
  Forall (has_codeword d) s ∧ bits = out ++ (s ≫= codeword d).
Proof.
  induction s as [|c s IH]; intros out bits Hs.
  - simpl in Hs. injection Hs as <-. split; [constructor|by rewrite app_nil_r].
  - cbn [for_each] in Hs. apply bind_Ok in Hs as (out1 & H1 & Hs).
    unfold encode_char, getitem in H1.
    destruct (d !! c) as [[p|]|] eqn:Hc; try done. cbn [bind] in H1.
    injection H1 as <-. destruct (IH _ _ Hs) as [Hall ->].
    split; [constructor; [by exists p|done]|].
    rewrite bind_cons. unfold codeword at 2. rewrite Hc. simpl.
    by rewrite app_assoc.
Qed.

(** X12: [encode] returns a bit list exactly when every character of the
    input has a codeword in the dictionary, and the bit list is then the
    concatenation of the codewords in input order. *)
Theorem encode_result (s : str) (d : Dictionary) (bits : list bool) :
  encode s d = Ok bits ↔
  Forall (has_codeword d) s ∧ bits = s ≫= codeword d.
Proof.
  split.
  - intros Hs. by apply (encode_from_inv d s []) in Hs.
  - intros [Hs ->]. by apply encode_codewords.
Qed.

(** X13: encoding a concatenation gives the concatenation of the
    encodings. *)
Theorem encode_concatenation (s1 s2 : str) (d : Dictionary) (b1 b2 : list bool) :
  encode s1 d = Ok b1 → encode s2 d = Ok b2 →
  encode (s1 ++ s2) d = Ok (b1 ++ b2).
Proof.
  intros H1 H2.
  apply (encode_from_inv d s1 []) in H1 as [Hs1 ->].
  apply (encode_from_inv d s2 []) in H2 as [Hs2 ->]. simpl.
  rewrite <- bind_app. apply encode_codewords. by apply Forall_app.
Qed.

Lemma encode_concatenation_witness :
  encode (py "ab" ++ py "c") dict_abc
  = Ok ([true; false; true; true] ++ [false]).
Proof.
  apply encode_concatenation; vm_compute; reflexivity.
Defined.

(** ** [decode] *)

(** The output collected so far only grows. *)
Lemma decode_loop_out root bits : ∀ out n,
  decode_loop root bits out n =
  match decode_loop root bits [] n with
  | Ok s => Ok (out ++ s)
  | Raise e => Raise e
  | OutOfFuel => OutOfFuel
  end.
Proof.
  induction bits as [|b bits IH]; intros out n; [simpl; by rewrite app_nil_r|].
  cbn [decode_loop].
  destruct (if b then right n else left n) as [m|]; [|done].
  destruct (str_truthy (value m)); [|apply IH].
  rewrite (IH (out ++ _)), (IH ([] ++ _)).
  destruct (decode_loop root bits [] root); [|done|done].
  by rewrite app_assoc.
Qed.

Lemma symbols_leaf c f : symbols (leaf c f) = [c].
Proof. reflexivity. Qed.

Lemma decode_loop_proper root : proper root → value root = None →
  ∀ bits n, proper n → value n = None → symbols n ⊆ symbols root →
  ∃ s, decode_loop root bits [] n = Ok s ∧
       Forall (λ c, c ∈ symbols root) s ∧ length s ≤ length bits.
Proof.
  intros Hroot Hv. induction bits as [|b bits IH]; intros n Hn Hvn Hsub.
  - exists []. repeat split; [constructor|done].
  - destruct Hn as [c f|f l r Hl Hr]; [done|].
    rewrite symbols_internal in Hsub.
    assert (∀ m, proper m → symbols m ⊆ symbols root →
              ∃ s, (if str_truthy (value m)
                    then decode_loop root bits ([] ++ default [] (value m)) root
                    else decode_loop root bits [] m) = Ok s ∧
                   Forall (λ c, c ∈ symbols root) s ∧ length s ≤ S (length bits))
      as Hchild.
    { intros m Hm Hsm. destruct Hm as [c' f'|f' l' r' Hl' Hr'].
      - simpl. rewrite decode_loop_out.
        destruct (IH root Hroot Hv) as (s & -> & Hs & Hlen); [done|].
        exists (c' :: s). split; [done|]. split; [|simpl; lia].
        constructor; [|done]. apply Hsm. rewrite symbols_leaf. by left.
      - simpl. destruct (IH (internal f' l' r')) as (s & -> & Hs & Hlen);
          [by constructor|done|done|].
        exists s. repeat split; [done|lia]. }
    cbn [decode_loop]. destruct b; simpl.
    + apply Hchild; [done|]. intros x Hx. apply Hsub, elem_of_app. by right.
    + apply Hchild; [done|]. intros x Hx. apply Hsub, elem_of_app. by left.
Qed.

(** X14: against a tree in which every node is a leaf with one character or
    has two children and no character, and whose root is not a leaf,
    [decode] raises nothing on any bit list; it returns characters of the
    tree only, at most one per bit. *)
Theorem decode_total_on_proper_tree (bits : list bool) (root : HuffmanNode) :
  proper root → value root = None →
  ∃ s, decode bits root = Ok s ∧
       Forall (λ c, c ∈ symbols root) s ∧ length s ≤ length bits.
Proof.
  intros Hroot Hv. by apply decode_loop_proper.
Qed.

Lemma decode_total_on_proper_tree_witness :
  ∃ s, decode [true; true; false; true] tree_abc = Ok s ∧
       Forall (λ c, c ∈ symbols tree_abc) s ∧
       length s ≤ length [true; true; false; true].
Proof.
  apply decode_total_on_proper_tree; [repeat constructor|reflexivity].
Defined.






(** ** Encoding and decoding with a built tree *)

Lemma built_roundtrip ft root d s :
  freq_table_ok ft → construct_huffman_tree ft = Ok root →
  construct_dict (Some root) None None = Ok d →
  Forall (has_codeword d) s →
  encode s d = Ok (s ≫= codeword d) ∧ decode (s ≫= codeword d) root = Ok s.
Proof.
  intros Hft Hroot Hd Hs.
  destruct (built_tree_dict ft root Hft Hroot) as (d' & Hd' & Hw & Hv & _ & _ & Hdict).
  rewrite Hd in Hd'. injection Hd' as <-.
  split; [by apply encode_codewords|].
  assert (Forall (λ x, x ∈ symbols root) s) as Hsym.
  { eapply Forall_impl; [exact Hs|]. intros x [w Hx]. apply Hdict in Hx.
    rewrite <- codes_symbols. apply list_elem_of_fmap. by exists (x, w). }
  unfold decode. rewrite <- (app_nil_r (s ≫= codeword d)).
  by rewrite (decode_loop_codewords root d s (weighted_proper _ Hw) Hv Hdict Hsym).
Qed.

(** X17: with the tree and the dictionary built from a frequency table,
    every string over the characters of the table, whether or not it is the
    string that was counted, is encoded and decoded back to itself. *)
Theorem roundtrip_over_table_characters
    (ft : FrequencyTable) (root : HuffmanNode) (d : Dictionary) (s : str) :
  freq_table_ok ft → construct_huffman_tree ft = Ok root →
  construct_dict (Some root) None None = Ok d →
  Forall (has_codeword d) s →
  ∃ bits, encode s d = Ok bits ∧ decode bits root = Ok s.
Proof.
  intros Hft Hroot Hd Hs. exists (s ≫= codeword d).
  by apply (built_roundtrip ft root d s).
Qed.

Lemma roundtrip_over_table_characters_witness :
  ∃ bits, encode (py "cabbac") dict_abc = Ok bits ∧
          decode bits tree_abc = Ok (py "cabbac").
Proof.
  apply (roundtrip_over_table_characters table_abc tree_abc dict_abc).
  - exact table_abc_ok.
  - exact tree_abc_of_table.
  - exact dict_abc_of_tree.
  - vm_compute. repeat constructor; eexists; reflexivity.
Defined.

(** X18: the pipeline of [main] gives back every single-byte string that
    has at least two distinct characters. *)
Theorem pipeline_roundtrip (s : str) (a b : nat) :
  bytes s → a ∈ s → b ∈ s → a ≠ b → roundtrip s = Ok s.
Proof. apply roundtrip_two_symbols. Qed.

Lemma pipeline_roundtrip_witness : roundtrip (py "hello world") = Ok (py "hello world").
Proof.
  apply (pipeline_roundtrip (py "hello world") 104 101).
  - vm_compute. repeat constructor.
  - vm_compute. left.
  - vm_compute. right. left.
  - lia.
Defined.

(** X19: with the dictionary of a built tree, two strings with the same
    encoding are the same string. *)
Theorem encode_injective
    (ft : FrequencyTable) (root : HuffmanNode) (d : Dictionary)
    (s1 s2 : str) (bits : list bool) :
  freq_table_ok ft → construct_huffman_tree ft = Ok root →
  construct_dict (Some root) None None = Ok d →
  encode s1 d = Ok bits → encode s2 d = Ok bits → s1 = s2.
Proof.
  intros Hft Hroot Hd H1 H2.
  apply (encode_from_inv d s1 []) in H1 as [Hs1 E1].
  apply (encode_from_inv d s2 []) in H2 as [Hs2 E2]. simpl in E1, E2.
  destruct (built_roundtrip ft root d s1 Hft Hroot Hd Hs1) as [_ D1].
  destruct (built_roundtrip ft root d s2 Hft Hroot Hd Hs2) as [_ D2].
  rewrite <- E1 in D1. rewrite <- E2, D1 in D2. by injection D2.
Qed.

Lemma encode_injective_witness : py "ab" = [97; 98].
Proof.
  apply (encode_injective table_abc tree_abc dict_abc (py "ab") [97; 98]
           [true; false; true; true]).
  - exact table_abc_ok.
  - exact tree_abc_of_table.
  - exact dict_abc_of_tree.
  - vm_compute. reflexivity.
  - vm_compute. reflexivity.
Defined.

(** ** Lengths of codewords *)

Lemma codes_depth t :
  proper t → ∀ c p, (c, p) ∈ codes t → length p < length (symbols t).
Proof.
  induction 1 as [c' f'|f l r Hl IHl Hr IHr]; intros c p Hin.
  - rewrite codes_leaf in Hin. apply list_elem_of_singleton in Hin as [= -> ->].
    simpl. lia.
  - rewrite symbols_internal, length_app.
    pose proof (proper_symbols_pos l Hl). pose proof (proper_symbols_pos r Hr).
    apply elem_of_codes_internal in Hin as [(p' & -> & Hin)|(p' & -> & Hin)]; simpl.
    + apply IHl in Hin. lia.
    + apply IHr in Hin. lia.
Qed.

Lemma length_omap_le {A B} (f : A → option B) (l : list A) :
  length (omap f l) ≤ length l.
Proof.
  induction l as [|x l IH]; [done|]. csimpl. destruct (f x); simpl; lia.
Qed.

Lemma length_bind_leaves (l : list HuffmanNode) :
  Forall (λ n, ∃ c f, n = leaf c f) l → length (l ≫= symbols) = length l.
Proof.
  induction 1 as [|n l (c & f & ->) _ IH]; [done|].
  rewrite bind_cons, length_app, IH. reflexivity.
Qed.

Lemma built_symbols_count ft root :
  freq_table_ok ft → construct_huffman_tree ft = Ok root →
  length (symbols root) = length (table_nodes ft).
Proof.
  intros Hft Hroot.
  destruct (built_tree_dict ft root Hft Hroot) as (d & _ & _ & _ & Hlv & _).
  unfold symbols. rewrite Hlv, bind_leaves_symbols. apply length_bind_leaves.
  apply Forall_forall. intros n Hn.
  destruct (table_nodes_leaf ft n Hft Hn) as (c & f & -> & _). eauto.
Qed.

Lemma codeword_length_bounds_aux ft root d c p :
  freq_table_ok ft → construct_huffman_tree ft = Ok root →
  construct_dict (Some root) None None = Ok d →
  d !! c = Some (Some p) →
  1 ≤ length p ∧ length p < length (table_nodes ft) ∧
  length (table_nodes ft) ≤ ASCII_MAX.
Proof.
  intros Hft Hroot Hd Hc.
  destruct (built_tree_dict ft root Hft Hroot) as (d' & Hd' & Hw & Hv & _ & _ & [_ Hdict]).
  rewrite Hd in Hd'. injection Hd' as <-. apply Hdict in Hc.
  pose proof (codes_depth root (weighted_proper _ Hw) c p Hc) as Hdepth.
  rewrite (built_symbols_count ft root Hft Hroot) in Hdepth.
  split; [|split; [done|]].
  - destruct Hw as [c' f' ?|l r Hl Hr]; [done|].
    apply elem_of_codes_internal in Hc as [(p' & -> & _)|(p' & -> & _)]; simpl; lia.
  - destruct Hft as [<- _]. apply length_omap_le.
Qed.

(** X20: in the dictionary of a built tree every codeword has at least one
    bit and fewer bits than the table has entries, so fewer than
    [ASCII_MAX]. *)
Theorem codeword_length_bounds
    (ft : FrequencyTable) (root : HuffmanNode) (d : Dictionary)
    (c : nat) (p : list bool) :
  freq_table_ok ft → construct_huffman_tree ft = Ok root →
  construct_dict (Some root) None None = Ok d →
  d !! c = Some (Some p) →
  1 ≤ length p ∧ length p < length (table_nodes ft) ∧
  length (table_nodes ft) ≤ ASCII_MAX.
Proof. apply codeword_length_bounds_aux. Qed.

Lemma codeword_length_bounds_witness :
  1 ≤ length [true; false] ∧ length [true; false] < length (table_nodes table_abc) ∧
  length (table_nodes table_abc) ≤ ASCII_MAX.
Proof.
  apply (codeword_length_bounds table_abc tree_abc dict_abc 97 [true; false]).
  - exact table_abc_ok.
  - exact tree_abc_of_table.
  - exact dict_abc_of_tree.
  - vm_compute. reflexivity.
Defined.

(** ** The encoded length against other codes *)

(** What the three stages of the pipeline establish for the input. *)
Lemma pipeline_built s ft root d :
  construct_frequency_table s = Ok ft →
  construct_huffman_tree ft = Ok root →
  construct_dict (Some root) None None = Ok d →
  bytes s ∧ freq_table_ok ft ∧ table_counts ft (λ i, occ i s) ∧
  weighted root ∧ leaves root ≡ₚ table_nodes ft ≫= leaves ∧
  NoDup (symbols root) ∧ dict_of root d ∧ Forall (has_codeword d) s.
Proof.
  intros Hft Hroot Hd.
  pose proof (construct_frequency_table_bytes s ft Hft) as Hs.
  destruct (string_table s Hs) as (ft' & Hft' & Hok & Hcount & Hin).
  rewrite Hft in Hft'. injection Hft' as <-.
  destruct (built_tree_dict ft root Hok Hroot)
    as (d0 & Hd0 & Hw & Hv & Hlv & Hnd & Hdict).
  rewrite Hd in Hd0. injection Hd0 as <-.
  repeat (split; [done|]).
  apply Forall_forall. intros c Hc.
  assert (c ∈ symbols root) as Hsym.
  { unfold symbols. rewrite Hlv. apply list_elem_of_fmap.
    exists (c, Z.of_nat (occ c s)). split; [done|].
    apply list_elem_of_bind. exists (leaf c (Z.of_nat (occ c s))).
    split; [by left|by apply Hin]. }
  rewrite <- codes_symbols in Hsym.
  apply list_elem_of_fmap in Hsym as ([c' p] & -> & Hp).
  exists p. by apply Hdict.
Qed.

Lemma built_total_length_minimal s ft root d d' :
  construct_frequency_table s = Ok ft →
  construct_huffman_tree ft = Ok root →
  construct_dict (Some root) None None = Ok d →
  prefix_code_for s d' →
  (total_length ft s d ≤ total_length ft s d')%Z.
Proof.
  intros Hft Hroot Hd Hd'.
  destruct (pipeline_built s ft root d Hft Hroot Hd)
    as (Hs & Hok & Hcount & Hw & Hlv & Hnd & Hdict & Hcw).
  destruct (prefix_code_assignment ft s d' Hs Hcount Hd') as (A & HA & Hk & Hcost).
  rewrite <- (wpl_total_length ft s root d Hs Hcount Hlv Hdict), <- Hcost.
  by apply (construct_huffman_tree_cost ft root A).
Qed.

Lemma built_prefix_code s ft root d :
  construct_frequency_table s = Ok ft →
  construct_huffman_tree ft = Ok root →
  construct_dict (Some root) None None = Ok d →
  prefix_code_for s d.
Proof.
  intros Hft Hroot Hd.
  destruct (pipeline_built s ft root d Hft Hroot Hd)
    as (Hs & Hok & Hcount & Hw & Hlv & Hnd & Hdict & Hcw).
  split; [done|]. intros a b Ha Hb Hne Hpre. apply Hne.
  rewrite Forall_forall in Hcw.
  destruct (Hcw a Ha) as [x Hx], (Hcw b Hb) as [y Hy].
  unfold codeword in Hpre. rewrite Hx, Hy in Hpre. simpl in Hpre.
  destruct Hdict as [_ Hdict]. apply Hdict in Hx, Hy.
  by apply (codes_prefix_same root (weighted_proper _ Hw) Hnd a b x y).
Qed.

Lemma fixed_dict_lookup c :
  c < ASCII_MAX → fixed_dict !! c = Some (Some (byte_bits c)).
Proof.
  intros Hc. unfold fixed_dict. by rewrite list_lookup_fmap, lookup_seq_lt.
Qed.

Lemma byte_bits_inj a b :
  a < ASCII_MAX → b < ASCII_MAX → byte_bits a = byte_bits b → a = b.
Proof.
  intros Ha Hb Heq.
  assert (NoDup (byte_bits <$> seq 0 ASCII_MAX)) as Hnd
    by (apply (bool_decide_unpack _); vm_compute; exact I).
  apply (NoDup_lookup _ a b (byte_bits a) Hnd).
  - by rewrite list_lookup_fmap, lookup_seq_lt.
  - by rewrite list_lookup_fmap, lookup_seq_lt, Heq.
Qed.

Lemma fixed_dict_prefix_code s : bytes s → prefix_code_for s fixed_dict.
Proof.
  intros Hs. unfold bytes in Hs. rewrite Forall_forall in Hs. split.
  - apply Forall_forall. intros c Hc. exists (byte_bits c).
    by apply fixed_dict_lookup, Hs.
  - intros a b Ha Hb Hne Hpre. apply Hne. unfold codeword in Hpre.
    rewrite !fixed_dict_lookup in Hpre by (by apply Hs). simpl in Hpre.
    apply byte_bits_inj; [by apply Hs|by apply Hs|].
    by apply prefix_length_eq.
Qed.

Lemma length_bind_bounds (g : nat → list bool) (s : str) (lo hi : nat) :
  Forall (λ c, lo ≤ length (g c) ≤ hi) s →
  lo * length s ≤ length (s ≫= g) ≤ hi * length s.
Proof.
  induction 1 as [|c s Hc _ IH]; [simpl; lia|].
  rewrite bind_cons, length_app. simpl length. lia.
Qed.

(** X21: the encoding of a string with the dictionary built for it has at
    least one bit and at most eight bits per character: the ratio [main]
    prints never exceeds 1. *)
Theorem encoded_length_bounds
    (s : str) (ft : FrequencyTable) (root : HuffmanNode) (d : Dictionary)
    (bits : list bool) :
  construct_frequency_table s = Ok ft →
  construct_huffman_tree ft = Ok root →
  construct_dict (Some root) None None = Ok d →
  encode s d = Ok bits →
  length s ≤ length bits ≤ 8 * length s.
Proof.
  intros Hft Hroot Hd Hbits.
  destruct (pipeline_built s ft root d Hft Hroot Hd)
    as (Hs & Hok & Hcount & Hw & Hlv & Hnd & Hdict & Hcw).
  apply (encode_from_inv d s []) in Hbits as [_ ->]. simpl. split.
  - destruct (length_bind_bounds (codeword d) s 1 ASCII_MAX) as [Hlo _]; [|lia].
    eapply Forall_impl; [exact Hcw|]. intros c [p Hp]. simpl.
    destruct (codeword_length_bounds_aux ft root d c p Hok Hroot Hd Hp) as (? & ? & ?).
    unfold codeword. rewrite Hp. simpl. lia.
  - pose proof (built_total_length_minimal s ft root d fixed_dict Hft Hroot Hd
                  (fixed_dict_prefix_code s Hs)) as Hopt.
    rewrite <- !(encoded_length ft s) in Hopt by done.
    destruct (length_bind_bounds (codeword fixed_dict) s 8 8) as [_ Hhi]; [|lia].
    unfold bytes in Hs. eapply Forall_impl; [exact Hs|]. intros c Hc. simpl.
    unfold codeword. rewrite fixed_dict_lookup by done. simpl. lia.
Qed.

Lemma encoded_length_bounds_witness :
  length (py "abc") ≤ length [true; false; true; true; false]
  ≤ 8 * length (py "abc").
Proof.
  apply (encoded_length_bounds (py "abc") table_abc tree_abc dict_abc).
  - exact table_abc_built.
  - exact tree_abc_of_table.
  - exact dict_abc_of_tree.
  - vm_compute. reflexivity.
Defined.

(** ** Frequent characters and short codewords *)

Lemma swap_codewords_lookup (d : Dictionary) a b x :
  a < length d → b < length d →
  swap_codewords d a b !! x = d !! swap_chars a b x.
Proof.
  intros Ha Hb. unfold swap_codewords, swap_chars.
  destruct (lookup_lt_is_Some_2 d a Ha) as [ya Hya].
  destruct (lookup_lt_is_Some_2 d b Hb) as [yb Hyb].
  rewrite (list_lookup_total_correct _ _ _ Hya), (list_lookup_total_correct _ _ _ Hyb).
  destruct (decide (x = a)) as [->|Hxa].
  - rewrite list_lookup_insert_eq by (by rewrite length_insert). done.
  - rewrite list_lookup_insert_ne by done.
    destruct (decide (x = b)) as [->|Hxb].
    + by rewrite list_lookup_insert_eq.
    + by rewrite list_lookup_insert_ne.
Qed.

Lemma swap_chars_inj a b x y : swap_chars a b x = swap_chars a b y → x = y.
Proof. unfold swap_chars. repeat case_decide; congruence. Qed.

Lemma swap_chars_elem_of a b x (s : str) :
  a ∈ s → b ∈ s → x ∈ s → swap_chars a b x ∈ s.
Proof. intros. unfold swap_chars. by repeat case_decide. Qed.

Lemma Zsum_differs_at_two (g g' : nat → Z) (l : list nat) a b :
  NoDup l → a ∈ l → b ∈ l → a ≠ b →
  (∀ c, c ≠ a → c ≠ b → g' c = g c) →
  Zsum (g' <$> l) = (Zsum (g <$> l) + (g' a - g a) + (g' b - g b))%Z.
Proof.
  intros Hnd Ha Hb Hne Hsame.
  rewrite <- (Zsum_indicator (λ _, g' a - g a)%Z a l Hnd Ha) at 1.
  rewrite <- (Zsum_indicator (λ _, g' b - g b)%Z b l Hnd Hb) at 1.
  rewrite <- !Zsum_fmap_add. f_equal. apply list_fmap_ext. intros i c _. simpl.
  destruct (decide (a = c)) as [Hac|Hac], (decide (b = c)) as [Hbc|Hbc];
    subst; try done; try lia.
  rewrite Hsame by done. lia.
Qed.

(** X22: in the dictionary built for a string, a character that occurs more
    often than another never has the longer codeword. *)
Theorem frequent_character_not_longer
    (s : str) (ft : FrequencyTable) (root : HuffmanNode) (d : Dictionary)
    (a b : nat) :
  construct_frequency_table s = Ok ft →
  construct_huffman_tree ft = Ok root →
  construct_dict (Some root) None None = Ok d →
  a ∈ s → b ∈ s → occ a s < occ b s →
  length (codeword d b) ≤ length (codeword d a).
Proof.
  intros Hft Hroot Hd Ha Hb Hocc.
  destruct (decide (length (codeword d b) ≤ length (codeword d a))) as [|Hlong];
    [done|exfalso].
  destruct (pipeline_built s ft root d Hft Hroot Hd)
    as (Hs & Hok & Hcount & Hw & Hlv & Hnd & [Hlen Hdict] & Hcw).
  destruct (built_prefix_code s ft root d Hft Hroot Hd) as [_ Hpf].
  assert (a ≠ b) as Hne by (intros ->; lia).
  unfold bytes in Hs. rewrite Forall_forall in Hs.
  pose proof (Hs a Ha) as Ha256. pose proof (Hs b Hb) as Hb256.
  assert (∀ x, swap_codewords d a b !! x = d !! swap_chars a b x) as Hlook
    by (intros x; apply swap_codewords_lookup; by rewrite Hlen).
  assert (∀ x, codeword (swap_codewords d a b) x = codeword d (swap_chars a b x))
    as Hcode by (intros x; unfold codeword; by rewrite Hlook).
  assert (prefix_code_for s (swap_codewords d a b)) as Hd'.
  { split.
    - apply Forall_forall. intros x Hx. unfold has_codeword. rewrite Hlook.
      rewrite Forall_forall in Hcw. by apply Hcw, swap_chars_elem_of.
    - intros x y Hx Hy Hxy. rewrite !Hcode.
      apply Hpf; [by apply swap_chars_elem_of..|].
      intros Heq. by apply Hxy, (swap_chars_inj a b). }
  pose proof (built_total_length_minimal s ft root d _ Hft Hroot Hd Hd') as Hopt.
  unfold total_length in Hopt.
  rewrite (Zsum_differs_at_two
             (λ c, frequency ft c * Z.of_nat (length (codeword d c)))%Z
             (λ c, frequency ft c * Z.of_nat (length (codeword (swap_codewords d a b) c)))%Z
             (remove_dups s) a b) in Hopt.
  - rewrite !Hcode in Hopt. unfold swap_chars in Hopt.
    rewrite (decide_True (P:=a = a)), (decide_False (P:=b = a)),
      (decide_True (P:=b = b)) in Hopt by done.
    rewrite (frequency_occ ft s a Hcount Ha256),
      (frequency_occ ft s b Hcount Hb256) in Hopt. nia.
  - apply NoDup_remove_dups.
  - by apply elem_of_remove_dups.
  - by apply elem_of_remove_dups.
  - done.
  - intros c Hca Hcb. rewrite Hcode. unfold swap_chars.
    by rewrite !decide_False.
Qed.

Lemma frequent_character_not_longer_witness :
  length (codeword dict_abb 98) ≤ length (codeword dict_abb 97).
Proof.
  apply (frequent_character_not_longer (py "abb") table_abb tree_abb dict_abb 97 98).
  - vm_compute. reflexivity.
  - vm_compute. reflexivity.
  - vm_compute. reflexivity.
  - vm_compute. left.
  - vm_compute. right. left.
  - vm_compute. lia.
Defined.

(** ** [bool_list_to_str] *)

Lemma bool_list_to_str_cons (b : bool) (l : list bool) :
  bool_list_to_str (b :: l) = (if b then 49 else 48) :: bool_list_to_str l.
Proof. by destruct b. Qed.

(** X23: the text of a bit list has one character per bit, "1" for [True]
    and "0" for [False], and two bit lists with the same text are the same
    list. *)
Theorem bool_list_to_str_faithful (l1 l2 : list bool) :
  length (bool_list_to_str l1) = length l1 ∧
  Forall (λ c, c = 48 ∨ c = 49) (bool_list_to_str l1) ∧
  (bool_list_to_str l1 = bool_list_to_str l2 → l1 = l2).
Proof.
  split; [|split].
  - induction l1 as [|b l1 IH]; [done|]. rewrite bool_list_to_str_cons. simpl. lia.
  - induction l1 as [|b l1 IH]; [constructor|]. rewrite bool_list_to_str_cons.
    constructor; [destruct b; auto|done].
  - revert l2. induction l1 as [|b1 l1 IH]; intros [|b2 l2]; try done.
    + rewrite bool_list_to_str_cons. done.
    + rewrite bool_list_to_str_cons. done.
    + rewrite !bool_list_to_str_cons. intros [= Hb Hl].
      f_equal; [by destruct b1, b2|by apply IH].
Qed.

